(** * mango: the chapter acquisition pipeline

    A shallow embedding of the two packages that make up the core of
    the program:

    - [downloader] ([downloader/downloader.go]): [FetchFile] and the
      bounded-concurrency [FetchChapter];
    - [packer] ([packer/packer.go]): [ArchiveCBZ], [GetCBZFilename],
      [sanitizeFilename], [ArchiveMultipleChapters], [BundleChapters].

    [FetchChapter] starts one goroutine per page plus one goroutine that
    closes the channels.  It is embedded as an interleaving transition
    system: a state holds the program point of every goroutine, the
    contents of the four channels, the wait group and the local variables
    of the main goroutine; [step] executes one atomic action of one
    goroutine.  Every schedule the Go runtime may pick is a sequence of
    such actions. *)

From Stdlib Require Import ZArith Lia Strings.Byte Strings.Ascii Strings.String DecimalString DecimalN.
From stdpp Require Import base tactics option list list_numbers relations sorting strings gmap.

Open Scope Z_scope.
Open Scope nat_scope.

(** Go's [[]byte]. *)
Abbreviation bytes := (list Byte.byte).

#[global] Instance byte_eq_dec : EqDecision Byte.byte := Byte.byte_eq_dec.

(* ===================================================================== *)
(** * Package grabber: the part the downloader consumes *)

Module grabber.

(** [type Page struct { Number int64; URL string }] *)
Record Page := mkPage { Number : Z; URL : string }.

End grabber.

(* ===================================================================== *)
(** * Package downloader *)

Module downloader.

(** [type File struct { Data []byte; Page uint }] *)
Record File := mkFile { Data : bytes; Page : Z }.

#[global] Instance File_eq_dec : EqDecision File.
Proof. solve_decision. Defined.

(** Errors.  [HttpError] and [ReadError] stand for what [http.Get] and
    [io.ReadAll] return; [PageError n e] is
    [fmt.Errorf("page %d: %w", n, e)]. *)
Inductive error :=
| HttpError (msg : string)
| ReadError (msg : string)
| PageError (number : Z) (cause : error).

#[global] Instance error_eq_dec : EqDecision error.
Proof. solve_decision. Defined.

(** The conversion [uint(page.Number)] of an [int64] on a 64-bit
    platform: the value modulo [2^64]. *)
Definition uint (n : Z) : Z := (n mod 2 ^ 64)%Z.

(** What a GET of a URL yields: the request fails, the body cannot be
    read, or the body is read in full. *)
Inductive response :=
| GetFails (e : error)
| BodyFails (e : error)
| Body (data : bytes).

(** One invocation [onprogress(page, progress, err)] of the
    [ProgressCallback]. *)
Record call := mkCall { c_page : nat; c_progress : nat; c_err : option error }.

#[global] Instance call_eq_dec : EqDecision call.
Proof. solve_decision. Defined.

(** Program points of the goroutine started for one page.  The
    constructors carry the goroutine's live locals [file] and [err]. *)
Inductive wpc :=
| WFetch                          (* FetchFile(...) is running *)
| WSelect (e : error)             (* err != nil: select { case errChan <- ...: ; default: } *)
| WCallErr (e : error)            (* errChan took the error: about to call onprogress(idx, idx, err) *)
| WSendFile (f : File)            (* fileChan <- file *)
| WCallOk (f : File)              (* about to call onprogress(1, idx, nil) *)
| WInCallback (r : File + error)  (* inside onprogress *)
| WRelease (r : File + error)     (* <-guard *)
| WExit (r : File + error)        (* deferred wg.Done() *)
| WDone (r : File + error).       (* the goroutine has ended *)

(** Program points of the main goroutine. *)
Inductive mpc :=
| MEntry                (* if len(chapter.Pages) == 0, and the make(...)s *)
| MGuard (i : nat)      (* loop head for page i: guard <- struct{}{} *)
| MSpawn (i : nat)      (* wg.Add(1); go func(page, i) *)
| MCollect              (* the select of the collecting loop *)
| MDrain                (* for file := range fileChan *)
| MCheck                (* if downloadErr != nil ...; sort; return *)
| MReturned (files : option (list File)) (err : option error).

(** Program points of the goroutine
    [go func() { wg.Wait(); close(done); close(fileChan) }()]. *)
Inductive cpc := CNotStarted | CWait | CCloseDone | CCloseFiles | CExit.

Record state := mkState {
  main : mpc;
  workers : list wpc;            (* goroutine idx is at position idx *)
  closer : cpc;
  wg : nat;                      (* sync.WaitGroup counter *)
  guard : nat;                   (* len(guard), a chan struct{} of capacity 5 *)
  errChan : option error;        (* buffer of errChan, capacity 1 *)
  done : bool;                   (* done has been closed *)
  fileChan : list File;          (* buffer of fileChan, capacity len(chapter.Pages) *)
  fileChanClosed : bool;
  files : list File;             (* the local files of the main goroutine *)
  downloadErr : option error;
  calls : list call              (* invocations of onprogress so far, oldest first *)
}.

Definition set_main m s :=
  mkState m (workers s) (closer s) (wg s) (guard s) (errChan s) (done s)
          (fileChan s) (fileChanClosed s) (files s) (downloadErr s) (calls s).
Definition set_workers ws s :=
  mkState (main s) ws (closer s) (wg s) (guard s) (errChan s) (done s)
          (fileChan s) (fileChanClosed s) (files s) (downloadErr s) (calls s).
Definition set_closer c s :=
  mkState (main s) (workers s) c (wg s) (guard s) (errChan s) (done s)
          (fileChan s) (fileChanClosed s) (files s) (downloadErr s) (calls s).
Definition set_wg n s :=
  mkState (main s) (workers s) (closer s) n (guard s) (errChan s) (done s)
          (fileChan s) (fileChanClosed s) (files s) (downloadErr s) (calls s).
Definition set_guard n s :=
  mkState (main s) (workers s) (closer s) (wg s) n (errChan s) (done s)
          (fileChan s) (fileChanClosed s) (files s) (downloadErr s) (calls s).
Definition set_errChan e s :=
  mkState (main s) (workers s) (closer s) (wg s) (guard s) e (done s)
          (fileChan s) (fileChanClosed s) (files s) (downloadErr s) (calls s).
Definition set_done b s :=
  mkState (main s) (workers s) (closer s) (wg s) (guard s) (errChan s) b
          (fileChan s) (fileChanClosed s) (files s) (downloadErr s) (calls s).
Definition set_fileChan fc s :=
  mkState (main s) (workers s) (closer s) (wg s) (guard s) (errChan s) (done s)
          fc (fileChanClosed s) (files s) (downloadErr s) (calls s).
Definition set_fileChanClosed b s :=
  mkState (main s) (workers s) (closer s) (wg s) (guard s) (errChan s) (done s)
          (fileChan s) b (files s) (downloadErr s) (calls s).
Definition set_files fs s :=
  mkState (main s) (workers s) (closer s) (wg s) (guard s) (errChan s) (done s)
          (fileChan s) (fileChanClosed s) fs (downloadErr s) (calls s).
Definition set_downloadErr e s :=
  mkState (main s) (workers s) (closer s) (wg s) (guard s) (errChan s) (done s)
          (fileChan s) (fileChanClosed s) (files s) e (calls s).
Definition set_calls cs s :=
  mkState (main s) (workers s) (closer s) (wg s) (guard s) (errChan s) (done s)
          (fileChan s) (fileChanClosed s) (files s) (downloadErr s) cs.

(** The state on entry to [FetchChapter]. *)
Definition init : state :=
  mkState MEntry [] CNotStarted 0 0 None false [] false [] None [].

(** [guard := make(chan struct{}, 5)] *)
Definition guardCap : nat := 5.

(** The comparison handed to [sort.SliceStable]:
    [files[i].Page < files[j].Page]. *)
Definition less (a b : File) : bool := (Page a <? Page b)%Z.

(** [sort.SliceStable(files, less)]: the stable sort, as insertion from
    the right.  An element is put in front of the first element that is
    not less than it, so elements with equal keys keep their order. *)
Fixpoint insertStable (x : File) (l : list File) : list File :=
  match l with
  | [] => [x]
  | y :: l' => if less y x then y :: insertStable x l' else x :: y :: l'
  end.

Definition sortStable (l : list File) : list File := foldr insertStable [] l.

(** The three cases of the select in the collecting loop. *)
Inductive selcase := RecvErr | RecvFile | RecvDone.

(** One atomic action: of the main goroutine (in the collecting loop,
    with the case the select takes), of the goroutine of page [idx], or
    of the closing goroutine. *)
Inductive action :=
| Main
| Select (c : selcase)
| Worker (idx : nat)
| Closer.

(** ** What can be observed of a page goroutine *)

(** It still holds the slot of [guard] that was filled for it. *)
Definition holding (w : wpc) : nat :=
  match w with WExit _ | WDone _ => 0 | _ => 1 end.

(** It has not yet called [wg.Done()]. *)
Definition live (w : wpc) : nat :=
  match w with WDone _ => 0 | _ => 1 end.

(** Its fetch is in flight. *)
Definition fetching (w : wpc) : nat :=
  match w with WFetch => 1 | _ => 0 end.

(** It is executing the progress callback. *)
Definition in_callback (w : wpc) : nat :=
  match w with WInCallback _ => 1 | _ => 0 end.

(** The file it has put into [fileChan], if it has. *)
Definition sent (w : wpc) : option File :=
  match w with
  | WCallOk f => Some f
  | WInCallback (inl f) | WRelease (inl f) | WExit (inl f) | WDone (inl f) => Some f
  | _ => None
  end.

(** What its [FetchFile] returned, once it has. *)
Definition result (w : wpc) : option (File + error) :=
  match w with
  | WFetch => None
  | WSelect e | WCallErr e => Some (inr e)
  | WSendFile f | WCallOk f => Some (inl f)
  | WInCallback r | WRelease r | WExit r | WDone r => Some r
  end.

(** The number of fetches in flight, of slots held, and of callback
    invocations executing, in a state. *)
Definition in_flight (s : state) : nat := sum_list_with fetching (workers s).
Definition slots_held (s : state) : nat := sum_list_with holding (workers s).
Definition callbacks_running (s : state) : nat := sum_list_with in_callback (workers s).

Section FetchChapter.

(** The network, and the chapter being fetched. *)
Variable http_Get : string → response.
Variable pages : list grabber.Page.

(** [FetchFile(params, page)] *)
Definition FetchFile (url : string) (page : Z) : File + error :=
  match http_Get url with
  | GetFails e => inr e
  | BodyFails e => inr e
  | Body data => inl (mkFile data page)
  end.

(** The call the goroutine of a page makes:
    [FetchFile(http.RequestParams{URL: page.URL}, uint(page.Number))]. *)
Definition fetch (p : grabber.Page) : File + error :=
  FetchFile (grabber.URL p) (uint (grabber.Number p)).

(** The main goroutine outside the select. *)
Definition step_main (s : state) : option state :=
  match main s with
  | MEntry =>
      if decide (length pages = 0)
      then Some (set_main (MReturned (Some []) None) s)
      else Some (set_main (MGuard 0) s)
  | MGuard i =>
      match pages !! i with
      | Some _ =>
          (* guard <- struct{}{} blocks while the buffer is full *)
          if decide (guard s < guardCap)
          then Some (set_main (MSpawn i) (set_guard (S (guard s)) s))
          else None
      | None =>
          (* the loop is over: start the closing goroutine *)
          Some (set_main MCollect (set_closer CWait s))
      end
  | MSpawn i =>
      Some (set_main (MGuard (S i))
             (set_wg (S (wg s)) (set_workers (workers s ++ [WFetch]) s)))
  | MCollect => None
  | MDrain =>
      match fileChan s with
      | f :: rest => Some (set_files (files s ++ [f]) (set_fileChan rest s))
      | [] => if fileChanClosed s then Some (set_main MCheck s) else None
      end
  | MCheck =>
      match downloadErr s with
      | Some e => Some (set_main (MReturned None (Some e)) s)
      | None => Some (set_main (MReturned (Some (sortStable (files s))) None) s)
      end
  | MReturned _ _ => None
  end.

(** The select of the collecting loop, taking case [c]; [None] when
    that case cannot proceed. *)
Definition step_select (c : selcase) (s : state) : option state :=
  match main s with
  | MCollect =>
      match c with
      | RecvErr =>
          match errChan s with
          | Some e =>
              Some (set_main MDrain (set_downloadErr (Some e) (set_errChan None s)))
          | None => None
          end
      | RecvFile =>
          match fileChan s with
          | f :: rest => Some (set_files (files s ++ [f]) (set_fileChan rest s))
          | [] =>
              (* a closed channel yields nil: nothing is appended *)
              if fileChanClosed s then Some s else None
          end
      | RecvDone => if done s then Some (set_main MDrain s) else None
      end
  | _ => None
  end.

(** The goroutine [go func(page grabber.Page, idx int)]. *)
Definition step_worker (idx : nat) (s : state) : option state :=
  let goto w s := set_workers (<[idx := w]> (workers s)) s in
  match workers s !! idx, pages !! idx with
  | Some w, Some p =>
      match w with
      | WFetch =>
          match fetch p with
          | inl f => Some (goto (WSendFile f) s)
          | inr e => Some (goto (WSelect e) s)
          end
      | WSelect e =>
          match errChan s with
          | None =>
              Some (goto (WCallErr e) (set_errChan (Some (PageError (grabber.Number p) e)) s))
          | Some _ => Some (goto (WRelease (inr e)) s)   (* default: *)
          end
      | WCallErr e =>
          Some (goto (WInCallback (inr e))
                 (set_calls (calls s ++ [mkCall idx idx (Some e)]) s))
      | WSendFile f =>
          if decide (length (fileChan s) < length pages)
          then Some (goto (WCallOk f) (set_fileChan (fileChan s ++ [f]) s))
          else None
      | WCallOk f =>
          Some (goto (WInCallback (inl f))
                 (set_calls (calls s ++ [mkCall 1 idx None]) s))
      | WInCallback r => Some (goto (WRelease r) s)
      | WRelease r =>
          match guard s with
          | S g => Some (goto (WExit r) (set_guard g s))
          | O => None
          end
      | WExit r =>
          match wg s with
          | S n => Some (goto (WDone r) (set_wg n s))
          | O => None
          end
      | WDone _ => None
      end
  | _, _ => None
  end.

(** The closing goroutine. *)
Definition step_closer (s : state) : option state :=
  match closer s with
  | CNotStarted => None
  | CWait => if decide (wg s = 0) then Some (set_closer CCloseDone s) else None
  | CCloseDone => Some (set_closer CCloseFiles (set_done true s))
  | CCloseFiles => Some (set_closer CExit (set_fileChanClosed true s))
  | CExit => None
  end.

Definition step (a : action) (s : state) : option state :=
  match a with
  | Main => step_main s
  | Select c => step_select c s
  | Worker idx => step_worker idx s
  | Closer => step_closer s
  end.

(** Running a schedule. *)
Fixpoint run (sched : list action) (s : state) : option state :=
  match sched with
  | [] => Some s
  | a :: sched' =>
      match step a s with
      | Some s' => run sched' s'
      | None => None
      end
  end.

Definition step_rel (s s' : state) : Prop := ∃ a, step a s = Some s'.

(** The states some schedule reaches. *)
Definition reachable (s : state) : Prop := rtc step_rel init s.

(** [FetchChapter] has returned [(fs, err)]. *)
Definition returned (fs : option (list File)) (err : option error) (s : state) : Prop :=
  main s = MReturned fs err.

Definition has_returned (s : state) : Prop := ∃ fs err, returned fs err s.

End FetchChapter.

End downloader.

(* ===================================================================== *)
(** * Package packer *)

Module packer.

(** ** The functions of [strings] and [fmt] the package calls

    A Go string is a sequence of bytes; so is a [string] here. *)

(** [strings.ToLower], on the ASCII letters.  The letters of other
    scripts it also maps never become one of [.], [c], [b], [z], so the
    test for the suffix [.cbz] below is the one the code makes. *)
Definition lower (c : ascii) : ascii :=
  let n := Ascii.N_of_ascii c in
  if ((65 <=? n) && (n <=? 90))%N then Ascii.ascii_of_N (n + 32) else c.

Fixpoint ToLower (s : string) : string :=
  match s with
  | EmptyString => EmptyString
  | String c s' => String (lower c) (ToLower s')
  end.

(** [strings.HasSuffix(s, suffix)]:
    [len(s) >= len(suffix) && s[len(s)-len(suffix):] == suffix]. *)
Definition HasSuffix (s suffix : string) : bool :=
  (String.length suffix <=? String.length s) &&
  String.eqb (String.substring (String.length s - String.length suffix)
                               (String.length suffix) s) suffix.

(** [strings.ReplaceAll(s, old, new)] for [old] and [new] of one byte
    each, which is how [sanitizeFilename] calls it. *)
Fixpoint ReplaceAll (s : string) (old new : ascii) : string :=
  match s with
  | EmptyString => EmptyString
  | String c s' => String (if decide (c = old) then new else c) (ReplaceAll s' old new)
  end.

Fixpoint contains (cutset : string) (c : ascii) : bool :=
  match cutset with
  | EmptyString => false
  | String d cutset' => if decide (c = d) then true else contains cutset' c
  end.

(** [strings.TrimRight(s, cutset)]: [s] without its trailing bytes that
    are in [cutset]. *)
Fixpoint TrimRight (s cutset : string) : string :=
  match s with
  | EmptyString => EmptyString
  | String c s' =>
      match TrimRight s' cutset with
      | EmptyString => if contains cutset c then EmptyString else String c EmptyString
      | t => String c t
      end
  end.

(** [%d] of a number that is not negative. *)
Definition decimal (n : N) : string :=
  DecimalString.NilZero.string_of_uint (N.to_uint n).

(** Zeros in front, up to [width] bytes. *)
Definition pad0 (width : nat) (s : string) : string :=
  String.concat "" (replicate (width - String.length s) "0") +:+ s.

(** [fmt.Sprintf("%03d.jpg", page)] for a [uint]. *)
Definition entry_name (page : Z) : string := pad0 3 (decimal (Z.to_N page)) +:+ ".jpg".

(** ** float64

    A finite [float64] is [(-1)^neg * m * 2^e] with [m < 2^53] and
    [-1074 <= e <= 971]; [m = 0] is a zero. *)
Inductive float64 :=
| Finite (neg : bool) (m : N) (e : Z)
| Inf (neg : bool)
| NaN.

Definition is_float64 (x : float64) : Prop :=
  match x with
  | Finite _ m e => (m < 2 ^ 53)%N ∧ (-1074 ≤ e ≤ 971)%Z
  | _ => True
  end.

(** The magnitude of a finite number as a fraction [num / den]. *)
Definition numerator (m : N) (e : Z) : N :=
  if (0 <=? e)%Z then (m * 2 ^ Z.to_N e)%N else m.
Definition denominator (e : Z) : N :=
  if (0 <=? e)%Z then 1%N else (2 ^ Z.to_N (- e))%N.

(** The number is an integer. *)
Definition integral (x : float64) : Prop :=
  match x with
  | Finite _ m e => (numerator m e mod denominator e = 0)%N
  | _ => False
  end.

(** The integer nearest to [num / den], the even one of two. *)
Definition round_half_even (num den : N) : N :=
  let q := (num / den)%N in
  match (2 * (num mod den) ?= den)%N with
  | Lt => q
  | Gt => (q + 1)%N
  | Eq => if N.even q then q else (q + 1)%N
  end.

(** [fmt.Sprintf("%.<prec>f", x)]: the decimal expansion of [x] rounded
    to [prec] digits after the point, half to even. *)
Definition format_f (prec : nat) (x : float64) : string :=
  match x with
  | NaN => "NaN"
  | Inf false => "+Inf"
  | Inf true => "-Inf"
  | Finite neg m e =>
      let scale := (10 ^ N.of_nat prec)%N in
      let q := round_half_even (numerator m e * scale) (denominator e) in
      (if neg then "-" else "") +:+ decimal (q / scale) +:+
      (match prec with
       | O => ""
       | S _ => "." +:+ pad0 prec (decimal (q mod scale))
       end)
  end.

(** [int64(x)]: [x] without its fraction, when that is an [int64]; what
    the platform makes of it otherwise (the language leaves it open). *)
Definition int64 (unrepresentable : float64 → Z) (x : float64) : Z :=
  match x with
  | Finite neg m e =>
      let t := Z.of_N (numerator m e / denominator e) in
      let v := if neg then (- t)%Z else t in
      if ((- 2 ^ 63 <=? v) && (v <? 2 ^ 63))%Z then v else unrepresentable x
  | _ => unrepresentable x
  end.

(** [float64(n)] for an [int64]: [n] itself when 53 bits hold it, the
    nearest number with 53 bits otherwise, the even one of two. *)
Definition to_float64 (n : Z) : float64 :=
  let a := Z.abs_N n in
  if (a <? 2 ^ 53)%N then Finite (n <? 0)%Z a 0
  else
    let k := (N.log2 a - 52)%N in
    Finite (n <? 0)%Z (round_half_even a (2 ^ k)) (Z.of_N k).

(** [x == y] *)
Definition float64_eqb (x y : float64) : bool :=
  match x, y with
  | Finite s1 m1 e1, Finite s2 m2 e2 =>
      ((numerator m1 e1 * denominator e2 =? numerator m2 e2 * denominator e1)%N) &&
      (bool_decide (s1 = s2) || (m1 =? 0)%N)
  | Inf s1, Inf s2 => bool_decide (s1 = s2)
  | _, _ => false
  end.

(** ** The platform: the functions of [path/filepath] the package calls,
    what a conversion to [int64] yields for a number that is none, and
    the I/O operations that fail. *)
Inductive oserror := OSError (msg : string).

Record platform := mkPlatform {
  Dir : string → string;                       (* filepath.Dir *)
  Join : string → string → string;             (* filepath.Join *)
  unrepresentable : float64 → Z;
  mkdir_fault : string → option oserror;       (* os.MkdirAll of a new directory fails *)
  open_fault : string → option oserror;        (* os.OpenFile of a new file fails *)
  create_fault : string → string → option oserror;   (* w.Create(name) fails *)
  write_fault : string → string → option oserror     (* f.Write(data) fails *)
}.

(** ** The file system *)

(** An entry of a zip archive. *)
Record entry := mkEntry { e_name : string; e_data : bytes }.

(** What is at a path: a directory, a file the packer did not write, or
    an archive with its entries in listing order. *)
Inductive node :=
| Directory
| Regular (content : bytes)
| Container (entries : list entry).

(** One invocation [progress(page, progress)] of the [ProgressCallback]. *)
Record call := mkCall { c_page : nat; c_progress : nat }.

(** A [ProgressCallback]: [nil], or a function; a function is given by
    the invocations of the caller's callback it makes. *)
Definition ProgressCallback := option (nat → nat → list call).

(** The files, and the invocations of the caller's callback so far. *)
Record world := mkWorld { fs : gmap string node; log : list call }.

(** The errors of the package. *)
Inductive error :=
| ErrNoFiles                                      (* "no files to pack" *)
| ErrMkdir (dir : string) (cause : oserror)       (* "failed to create directory %s: %w" *)
| ErrExists (filename : string)                   (* "file %s already exists" *)
| ErrCreateFile (filename : string) (cause : oserror)   (* "failed to create file %s: %w" *)
| ErrCreateEntry (name : string) (cause : oserror)      (* "failed to create entry %s: %w" *)
| ErrWrite (name : string) (cause : oserror)      (* "failed to write data for %s: %w" *)
| ErrNoChapters                                   (* "no chapters to pack" *)
| ErrBaseDir (baseDir : string) (cause : oserror) (* "failed to create base directory %s: %w" *)
| ErrChapter (chapterKey : string) (cause : error).     (* "failed to archive chapter %s: %w" *)

(** What [BundleChapters] returns: its own two errors, or the error of
    [ArchiveCBZ] as it is. *)
Inductive bundle_error :=
| ErrNoChaptersToBundle                           (* "no chapters to bundle" *)
| ErrNoFilesToBundle                              (* "no files to bundle" *)
| ErrArchive (err : error).

(** The cause of an [os.OpenFile] that fails. *)
Inductive open_error := EEXIST | OtherOpenError (cause : oserror).

(** [sanitizeFilename].  ["034"] is the double quote. *)
Definition invalidChars : list ascii :=
  ["/"; "\"; ":"; "*"; "?"; "034"; "<"; ">"; "|"]%char.

Definition sanitizeFilename (filename : string) : string :=
  let result := foldl (λ result char, ReplaceAll result char "_"%char) filename invalidChars in
  let result := TrimRight result " ." in
  if decide (200 < String.length result) then String.substring 0 200 result else result.

Section packer.

Variable os : platform.

(** [os.MkdirAll(dir, 0755)].  Only [dir] itself is entered into the
    file system: the package looks at no directory above it. *)
Definition MkdirAll (dir : string) (w : world) : world * option oserror :=
  match fs w !! dir with
  | Some Directory => (w, None)
  | Some _ => (w, Some (OSError "not a directory"))
  | None =>
      match mkdir_fault os dir with
      | Some e => (w, Some e)
      | None => (mkWorld (<[dir := Directory]> (fs w)) (log w), None)
      end
  end.

(** [os.OpenFile(filename, os.O_RDWR|os.O_CREATE|os.O_EXCL, 0666)],
    with a [zip.NewWriter] on the new file. *)
Definition OpenFile (filename : string) (w : world) : world + open_error :=
  match fs w !! filename with
  | Some _ => inr EEXIST
  | None =>
      match open_fault os filename with
      | Some e => inr (OtherOpenError e)
      | None => inl (mkWorld (<[filename := Container []]> (fs w)) (log w))
      end
  end.

(** One more entry at the end of the archive at [path]. *)
Definition add_entry (path : string) (e : entry) (w : world) : world :=
  mkWorld (alter (λ n, match n with
                       | Container es => Container (es ++ [e])
                       | _ => n
                       end) path (fs w)) (log w).

(** [progress(page, i)], [if progress != nil]. *)
Definition report (progress : ProgressCallback) (page i : nat) (w : world) : world :=
  match progress with
  | Some f => mkWorld (fs w) (log w ++ f page i)
  | None => w
  end.

(** The loop [for i, file := range files] of [ArchiveCBZ], from index
    [i]. *)
Fixpoint write_files (path : string) (i : nat) (files : list downloader.File)
    (progress : ProgressCallback) (w : world) : world * option error :=
  match files with
  | [] => (w, None)
  | file :: rest =>
      let filename := entry_name (downloader.Page file) in
      match create_fault os path filename with
      | Some e => (w, Some (ErrCreateEntry filename e))
      | None =>
          match write_fault os path filename with
          | Some e => (add_entry path (mkEntry filename []) w, Some (ErrWrite filename e))
          | None =>
              write_files path (S i) rest progress
                (report progress 1 i
                   (add_entry path (mkEntry filename (downloader.Data file)) w))
          end
      end
  end.

(** The destination: [filename], with [.cbz] appended unless it ends in
    it. *)
Definition destination (filename : string) : string :=
  if HasSuffix (ToLower filename) ".cbz" then filename else filename +:+ ".cbz".

(** [ArchiveCBZ] *)
Definition ArchiveCBZ (filename : string) (files : list downloader.File)
    (progress : ProgressCallback) (w : world) : world * option error :=
  if decide (length files = 0) then (w, Some ErrNoFiles)
  else
    let filename := destination filename in
    let dir := Dir os filename in
    match (if decide (dir = ".") then (w, None) else MkdirAll dir w) with
    | (w, Some e) => (w, Some (ErrMkdir dir e))
    | (w, None) =>
        match OpenFile filename w with
        | inr EEXIST => (w, Some (ErrExists filename))
        | inr (OtherOpenError e) => (w, Some (ErrCreateFile filename e))
        | inl w => write_files filename 0 files progress w
        end
    end.

(** The local [chapterStr] of [GetCBZFilename]. *)
Definition chapterStr (chapterNumber : float64) : string :=
  if float64_eqb chapterNumber (to_float64 (int64 (unrepresentable os) chapterNumber))
  then format_f 0 chapterNumber
  else format_f 1 chapterNumber.

(** [GetCBZFilename] *)
Definition GetCBZFilename (title : string) (chapterNumber : float64)
    (chapterTitle : string) : string :=
  let sanitizedTitle := sanitizeFilename title in
  let filename := sanitizedTitle +:+ " - Chapter " +:+ chapterStr chapterNumber in
  let filename :=
    if decide (chapterTitle = "") then filename
    else filename +:+ " - " +:+ sanitizeFilename chapterTitle in
  filename +:+ ".cbz".

(** The loop [for chapterKey, files := range chapters] of
    [ArchiveMultipleChapters], over the keys in the order the runtime
    visits them, with [processedFiles] files done. *)
Fixpoint archive_chapters (baseDir : string) (chapters : gmap string (list downloader.File))
    (titles : gmap string string) (chapterNumbers : gmap string float64)
    (progress : ProgressCallback) (processedFiles : nat) (keys : list string)
    (w : world) : world * option error :=
  match keys with
  | [] => (w, None)
  | chapterKey :: keys' =>
      let files := default [] (chapters !! chapterKey) in
      if decide (length files = 0)
      then archive_chapters baseDir chapters titles chapterNumbers progress
             processedFiles keys' w
      else
        let title := default "" (titles !! chapterKey) in
        let chapterNum := default (Finite false 0 0) (chapterNumbers !! chapterKey) in
        let filename := GetCBZFilename title chapterNum "" in
        let fullPath := Join os baseDir filename in
        let chapterProgress : ProgressCallback :=
          Some (λ page fileProgress,
                  match progress with
                  | Some f => f page (processedFiles + fileProgress)
                  | None => []
                  end) in
        match ArchiveCBZ fullPath files chapterProgress w with
        | (w, Some err) => (w, Some (ErrChapter chapterKey err))
        | (w, None) =>
            archive_chapters baseDir chapters titles chapterNumbers progress
              (processedFiles + length files) keys' w
        end
  end.

(** [ArchiveMultipleChapters].  [order] is the order in which the
    runtime visits the keys of [chapters]: the language leaves it open. *)
Definition ArchiveMultipleChapters (baseDir : string)
    (chapters : gmap string (list downloader.File))
    (titles : gmap string string) (chapterNumbers : gmap string float64)
    (progress : ProgressCallback) (order : list string)
    (w : world) : world * option error :=
  if decide (size chapters = 0) then (w, Some ErrNoChapters)
  else
    match MkdirAll baseDir w with
    | (w, Some e) => (w, Some (ErrBaseDir baseDir e))
    | (w, None) =>
        archive_chapters baseDir chapters titles chapterNumbers progress 0 order w
    end.

(** The loops of [BundleChapters] that fill [allFiles]: over the keys of
    [chapters] in the order the runtime visits them and, inside, over the
    files of the group; each file is copied and appended. *)
Definition bundle_files (chapters : gmap string (list downloader.File))
    (order : list string) : list downloader.File :=
  foldl (λ allFiles chapterKey,
           foldl (λ allFiles file,
                    let bundledFile :=
                      downloader.mkFile (downloader.Data file) (downloader.Page file) in
                    allFiles ++ [bundledFile])
                 allFiles (default [] (chapters !! chapterKey)))
        [] order.

(** [BundleChapters].  [order] is as for [ArchiveMultipleChapters]. *)
Definition BundleChapters (filename : string)
    (chapters : gmap string (list downloader.File))
    (progress : ProgressCallback) (order : list string)
    (w : world) : world * option bundle_error :=
  if decide (size chapters = 0) then (w, Some ErrNoChaptersToBundle)
  else
    let allFiles := bundle_files chapters order in
    if decide (length allFiles = 0) then (w, Some ErrNoFilesToBundle)
    else
      match ArchiveCBZ filename allFiles progress w with
      | (w, err) => (w, ErrArchive <$> err)
      end.

End packer.

End packer.

(* ===================================================================== *)
(** * Facts about lists updated in place *)

Section list_update.
Context {A B : Type}.
Implicit Types (l : list A) (f : A → nat) (g : A → option B).

Lemma sum_list_with_insert f l i x y :
  l !! i = Some x →
  sum_list_with f (<[i:=y]> l) + f x = sum_list_with f l + f y.
Proof.
  revert i. induction l as [|a l IH]; intros [|i] Hi; simplify_eq/=; [lia|].
  specialize (IH _ Hi). lia.
Qed.

Lemma sum_list_with_lookup f l i x :
  l !! i = Some x → f x ≤ sum_list_with f l.
Proof.
  intros Hi. apply sum_list_with_in. by eapply list_elem_of_lookup_2.
Qed.

Lemma sum_list_with_zero f l i x :
  sum_list_with f l = 0 → l !! i = Some x → f x = 0.
Proof. intros H0 Hi. pose proof (sum_list_with_lookup f l i x Hi). lia. Qed.

Lemma sum_list_with_le f f' l :
  (∀ x, f x ≤ f' x) → sum_list_with f l ≤ sum_list_with f' l.
Proof.
  intros Hle. induction l as [|a l IH]; simpl; [lia|].
  specialize (Hle a). lia.
Qed.

Lemma omap_insert_same g l i x y :
  l !! i = Some x → g x = g y → omap g (<[i:=y]> l) = omap g l.
Proof.
  revert i. induction l as [|a l IH]; intros [|i] Hi Hg; simplify_eq/=.
  - by rewrite Hg.
  - by rewrite (IH _ Hi Hg).
Qed.

Lemma omap_insert_new g l i x y b :
  l !! i = Some x → g x = None → g y = Some b →
  omap g (<[i:=y]> l) ≡ₚ omap g l ++ [b].
Proof.
  revert i. induction l as [|a l IH]; intros [|i] Hi Hx Hy; simplify_eq/=.
  - rewrite Hx, Hy. simpl. by rewrite Permutation_cons_append.
  - specialize (IH _ Hi Hx Hy). destruct (g a); simpl; by rewrite IH.
Qed.

Lemma omap_length_le g l : length (omap g l) ≤ length l.
Proof. induction l as [|a l IH]; csimpl; [lia|]. destruct (g a); simpl; lia. Qed.

Lemma omap_length_lt g l i x :
  l !! i = Some x → g x = None → length (omap g l) < length l.
Proof.
  revert i. induction l as [|a l IH]; intros [|i] Hi Hx; simpl in Hi; simplify_eq; csimpl.
  - rewrite Hx. pose proof (omap_length_le g l). lia.
  - specialize (IH _ Hi Hx). destruct (g a); simpl; lia.
Qed.

End list_update.

(* ===================================================================== *)
(** * The stable sort by page number *)

Section sortStable_facts.
Import downloader.

(** The order the sort establishes. *)
Definition page_le (a b : File) : Prop := (Page a ≤ Page b)%Z.

#[local] Instance page_le_trans : Transitive page_le.
Proof. unfold page_le. intros a b c. lia. Qed.

Lemma insertStable_perm x l : insertStable x l ≡ₚ x :: l.
Proof.
  induction l as [|y l IH]; simpl; [done|].
  destruct (less y x); [|done]. by rewrite IH, Permutation_swap.
Qed.

Lemma sortStable_perm l : sortStable l ≡ₚ l.
Proof.
  induction l as [|x l IH]; simpl; [done|].
  by rewrite insertStable_perm, IH.
Qed.

Lemma insertStable_sorted x l : Sorted page_le l → Sorted page_le (insertStable x l).
Proof.
  induction 1 as [|y l Hs IH Hhd]; simpl; [by repeat constructor|].
  unfold less. destruct (Z.ltb_spec (Page y) (Page x)) as [Hlt|Hge].
  - constructor; [done|].
    destruct Hhd as [|z l Hyz]; simpl.
    + constructor. unfold page_le. lia.
    + unfold less. destruct (Z.ltb_spec (Page z) (Page x)); constructor; [done|].
      unfold page_le. lia.
  - constructor; [by constructor|]. by constructor.
Qed.

Lemma sortStable_sorted l : Sorted page_le (sortStable l).
Proof.
  induction l as [|x l IH]; simpl; [constructor|]. by apply insertStable_sorted.
Qed.

(** The sort is stable: files with the same page number keep their
    order. *)
Lemma insertStable_stable k x l :
  filter (λ f, Page f = k) (insertStable x l) = filter (λ f, Page f = k) (x :: l).
Proof.
  induction l as [|y l IH]; simpl; [done|].
  unfold less. destruct (Z.ltb_spec (Page y) (Page x)) as [Hlt|Hge]; [|done].
  rewrite (filter_cons _ y), IH, !filter_cons.
  destruct (decide (Page y = k)), (decide (Page x = k)); try done. lia.
Qed.

Lemma sortStable_stable k l :
  filter (λ f, Page f = k) (sortStable l) = filter (λ f, Page f = k) l.
Proof.
  induction l as [|x l IH]; simpl; [done|].
  by rewrite insertStable_stable, !filter_cons, IH.
Qed.

Lemma NoDup_fmap_eq {A B} (f : A → B) (l : list A) x y :
  NoDup (f <$> l) → x ∈ l → y ∈ l → f x = f y → x = y.
Proof.
  induction l as [|a l IH]; csimpl; intros Hnd Hx Hy Hf; [by apply elem_of_nil in Hx|].
  apply NoDup_cons in Hnd as [Ha Hnd].
  apply elem_of_cons in Hx as [->|Hx]; apply elem_of_cons in Hy as [->|Hy]; auto.
  - destruct Ha. rewrite Hf. by apply list_elem_of_fmap_2.
  - destruct Ha. rewrite <- Hf. by apply list_elem_of_fmap_2.
Qed.

(** An ascending list of files whose page numbers are those of a list
    with strictly ascending page numbers is that list. *)
Lemma sorted_files_unique l k :
  Sorted page_le l → StronglySorted Z.lt (Page <$> k) → l ≡ₚ k → l = k.
Proof.
  intros Hl Hk Hp. apply (Sorted_unique_strong page_le); [|done| |done].
  - intros x y Hx Hy Hxy Hyx. rewrite Hp in Hx.
    apply (NoDup_fmap_eq Page k); [|done|done|unfold page_le in *; lia].
    clear -Hk. induction (Page <$> k) as [|a m IH]; [constructor|].
    apply StronglySorted_inv in Hk as [Hm Ha]. apply NoDup_cons. split; [|auto].
    intros Hin. rewrite Forall_forall in Ha. specialize (Ha _ Hin). lia.
  - apply StronglySorted_Sorted.
    assert (∀ m, StronglySorted Z.lt (Page <$> m) → StronglySorted page_le m) as H.
    { induction m as [|a m IH]; csimpl; intros Hm; [constructor|].
      apply StronglySorted_inv in Hm as [Hm Ha]. constructor; [auto|].
      rewrite Forall_fmap in Ha. eapply Forall_impl; [done|].
      unfold page_le. simpl. intros. lia. }
    by apply H.
Qed.

End sortStable_facts.

(* ===================================================================== *)
(** * FetchChapter: the invariant of its reachable states *)

Section FetchChapter_invariant.
Import downloader.

Variable http_Get : string → response.
Variable pages : list grabber.Page.

Local Abbreviation N := (length pages).
Local Abbreviation step := (downloader.step http_Get pages).
Local Abbreviation fetch := (downloader.fetch http_Get).
Local Abbreviation reachable := (downloader.reachable http_Get pages).

(** The number of page goroutines the main goroutine has started. *)
Definition spawned (m : mpc) : nat :=
  match m with
  | MEntry => 0
  | MGuard i | MSpawn i => i
  | _ => N
  end.

(** The main goroutine has filled a slot of [guard] for a goroutine it
    has not started yet. *)
Definition spawn_pending (m : mpc) : nat :=
  match m with MSpawn _ => 1 | _ => 0 end.

(** It is still in, or before, the loop that starts the goroutines. *)
Definition pre_loop (m : mpc) : Prop :=
  match m with MEntry | MGuard _ | MSpawn _ => True | _ => False end.

(** It is receiving from the channels. *)
Definition receiving (m : mpc) : Prop :=
  match m with MCollect | MDrain => True | _ => False end.

(** The invocation of the callback a goroutine with locals [r] makes. *)
Definition call_of (idx : nat) (r : File + error) : call :=
  match r with
  | inl _ => mkCall 1 idx None
  | inr e => mkCall idx idx (Some e)
  end.

(** The goroutine has begun its invocation [c] of the callback. *)
Definition has_called (w : wpc) (c : call) : Prop :=
  match w with
  | WInCallback r | WRelease r | WExit r | WDone r => c = call_of (c_progress c) r
  | _ => False
  end.

(** The goroutine fetched its page and has begun to report it. *)
Definition reported_ok (w : wpc) : Prop :=
  match w with
  | WInCallback (inl _) | WRelease (inl _) | WExit (inl _) | WDone (inl _) => True
  | _ => False
  end.

(** The goroutine failed to fetch its page and is past its select. *)
Definition past_select (w : wpc) : Prop :=
  match w with
  | WInCallback (inr _) | WRelease (inr _) | WExit (inr _) | WDone (inr _) => True
  | _ => False
  end.

(** What [FetchChapter] returns from the end of the draining loop. *)
Definition final_result (s : state) : mpc :=
  match downloadErr s with
  | Some e => MReturned None (Some e)
  | None => MReturned (Some (sortStable (files s))) None
  end.

Definition I_len (s : state) : Prop :=
  length (workers s) = spawned (main s) ∧
  spawned (main s) + spawn_pending (main s) ≤ N.

Definition I_guard (s : state) : Prop :=
  guard s = slots_held s + spawn_pending (main s) ∧ guard s ≤ guardCap.

Definition I_wg (s : state) : Prop := wg s = sum_list_with live (workers s).

Definition I_result (s : state) : Prop :=
  ∀ i w r, workers s !! i = Some w → result w = Some r →
           ∃ p, pages !! i = Some p ∧ r = fetch p.

Definition I_files (s : state) : Prop :=
  files s ++ fileChan s ≡ₚ omap sent (workers s).

Definition I_closer (s : state) : Prop :=
  match closer s with
  | CNotStarted =>
      done s = false ∧ fileChanClosed s = false ∧
      (pre_loop (main s) ∨ (N = 0 ∧ main s = MReturned (Some []) None))
  | CWait => done s = false ∧ fileChanClosed s = false ∧ receiving (main s)
  | CCloseDone =>
      wg s = 0 ∧ done s = false ∧ fileChanClosed s = false ∧ receiving (main s)
  | CCloseFiles =>
      wg s = 0 ∧ done s = true ∧ fileChanClosed s = false ∧ receiving (main s)
  | CExit =>
      wg s = 0 ∧ done s = true ∧ fileChanClosed s = true ∧ ¬ pre_loop (main s)
  end.

Definition I_main (s : state) : Prop :=
  match main s with
  | MEntry => s = init
  | MCheck => fileChan s = [] ∧ fileChanClosed s = true
  | MReturned fs err =>
      (closer s = CNotStarted ∧ calls s = []) ∨
      (fileChan s = [] ∧ fileChanClosed s = true ∧
       MReturned fs err = final_result s)
  | _ => True
  end.

Definition I_err (s : state) : Prop :=
  ∀ e, errChan s = Some e ∨ downloadErr s = Some e →
       ∃ i p e0, pages !! i = Some p ∧ fetch p = inr e0 ∧
                 e = PageError (grabber.Number p) e0.

Definition calls_ok (ws : list wpc) (cs : list call) : Prop :=
  (∀ c, c ∈ cs → ∃ w, ws !! c_progress c = Some w ∧ has_called w c) ∧
  NoDup (c_progress <$> cs) ∧
  (∀ i w, ws !! i = Some w → reported_ok w → mkCall 1 i None ∈ cs).

Definition I_calls (s : state) : Prop := calls_ok (workers s) (calls s).

(** Some goroutine is past its select with a failed fetch. *)
Definition some_past_select (ws : list wpc) : Prop :=
  ∃ i w, ws !! i = Some w ∧ past_select w.

(** Some goroutine is about to report an error, or one has. *)
Definition error_shown (ws : list wpc) (cs : list call) : Prop :=
  (∃ j e, ws !! j = Some (WCallErr e)) ∨ (∃ c, c ∈ cs ∧ is_Some (c_err c)).

Definition I_errcall (s : state) : Prop :=
  is_Some (errChan s) ∨ is_Some (downloadErr s) ∨ some_past_select (workers s) →
  error_shown (workers s) (calls s).

Record Inv (s : state) : Prop := mkInv {
  inv_len : I_len s;
  inv_guard : I_guard s;
  inv_wg : I_wg s;
  inv_result : I_result s;
  inv_files : I_files s;
  inv_closer : I_closer s;
  inv_main : I_main s;
  inv_err : I_err s;
  inv_calls : I_calls s;
  inv_errcall : I_errcall s
}.

Lemma Inv_init : Inv init.
Proof.
  split; red; simpl; try done.
  - lia.
  - unfold slots_held, guardCap. simpl. lia.
  - auto.
  - intros e [?|?]; done.
  - split; [|split]; [intros c Hc; by apply elem_of_nil in Hc|apply NoDup_nil_2|by intros i w Hi].
  - intros [[? ?]|[[? ?]|(? & ? & ? & ?)]]; done.
Qed.

Ltac step_cases H :=
  unfold downloader.step, step_main, step_select, step_worker, step_closer in H;
  repeat match type of H with
    | context [match ?x with _ => _ end] => destruct x eqn:?; try discriminate H
    end;
  injection H as <-.

Ltac sset :=
  cbn [main workers closer wg guard errChan done fileChan fileChanClosed files
       downloadErr calls set_main set_workers set_closer set_wg set_guard
       set_errChan set_done set_fileChan set_fileChanClosed set_files
       set_downloadErr set_calls] in *.

Ltac goal_eqs :=
  repeat match goal with E : _ = _ |- _ => progress (rewrite E) end.

Ltac use_main :=
  try match goal with E : main _ = _ |- _ => rewrite ?E in *; simpl in * end.

Lemma step_I_len s a s' : Inv s → step a s = Some s' → I_len s'.
Proof.
  intros HI Hs. destruct (inv_len _ HI) as [Hl Hb]. pose proof (inv_main _ HI) as Hm.
  unfold I_len, I_main in *.
  step_cases Hs; simpl; rewrite ?length_insert, ?length_app; use_main;
    try (split; [done || lia | done || lia]).
  - apply lookup_lt_Some in Heqo. lia.
  - apply lookup_ge_None in Heqo. lia.
Qed.

Lemma step_I_guard s a s' : Inv s → step a s = Some s' → I_guard s'.
Proof.
  intros HI Hs. destruct (inv_guard _ HI) as [Hg Hc].
  unfold I_guard, slots_held, guardCap in *.
  step_cases Hs; unfold guardCap in *; simpl; use_main; rewrite ?sum_list_with_app; simpl;
    try match goal with
        | E : workers _ !! ?i = Some ?w |- context [<[?i:=?w']> _] =>
            pose proof (sum_list_with_insert holding _ i w w' E); simpl in *
        end;
    try (split; lia).
Qed.

Lemma step_I_wg s a s' : Inv s → step a s = Some s' → I_wg s'.
Proof.
  intros HI Hs. pose proof (inv_wg _ HI) as Hw. unfold I_wg in *.
  step_cases Hs; simpl; use_main; rewrite ?sum_list_with_app; simpl;
    try match goal with
        | E : workers _ !! ?i = Some ?w |- context [<[?i:=?w']> _] =>
            pose proof (sum_list_with_insert live _ i w w' E); simpl in *
        end;
    try lia.
Qed.

Lemma step_I_result s a s' : Inv s → step a s = Some s' → I_result s'.
Proof.
  intros HI Hs. pose proof (inv_result _ HI) as Hr. unfold I_result in *.
  step_cases Hs; simpl; try done.
  all: intros j w' r' Hj Hres.
  1: { apply lookup_app_Some in Hj as [Hj|[_ Hj]]; [by eauto|].
       apply list_lookup_singleton_Some in Hj as [_ <-]. done. }
  all: destruct (decide (j = idx)) as [->|Hne];
    [ rewrite list_lookup_insert_eq in Hj by (by eapply lookup_lt_Some);
      simplify_eq/=; eauto
    | rewrite list_lookup_insert_ne in Hj by done; eauto ].
  all: try (eapply Hr; [done|]; done).
Qed.

Lemma step_I_files s a s' : Inv s → step a s = Some s' → I_files s'.
Proof.
  intros HI Hs. pose proof (inv_files _ HI) as Hf. unfold I_files in *.
  step_cases Hs; sset; goal_eqs; rewrite ?(right_id_L [] (++)) in *; try done.
  all: try by rewrite <- (assoc_L (++)).
  all: try match goal with
           | E : workers _ !! ?i = Some ?w |- context [<[?i:=?w']> _] =>
               first [ rewrite (omap_insert_same sent _ i w w' E) by done; done
                     | rewrite (omap_insert_new sent _ i w w' _ E) by done;
                       by rewrite (assoc_L (++)), Hf ]
           end.
  - rewrite omap_app. simpl. by rewrite (right_id_L [] (++)).
Qed.

(** A goroutine that takes a step has not yet called [wg.Done()]. *)
Lemma step_worker_live s idx s' :
  step_worker http_Get pages idx s = Some s' →
  ∃ w, workers s !! idx = Some w ∧ live w = 1.
Proof.
  unfold step_worker. intros Hs.
  destruct (workers s !! idx) as [w|] eqn:Hw; [|done].
  exists w. split; [done|]. destruct (pages !! idx); [|done]. by destruct w.
Qed.

Lemma no_worker_step s idx :
  Inv s → wg s = 0 → step_worker http_Get pages idx s = None.
Proof.
  intros HI Hwg. destruct (step_worker _ _ idx s) as [s'|] eqn:Hs; [|done].
  apply step_worker_live in Hs as (w & Hw & Hl).
  pose proof (inv_wg _ HI) as Hsum. red in Hsum.
  pose proof (sum_list_with_lookup live _ _ _ Hw). lia.
Qed.

Lemma closed_wg s : Inv s → fileChanClosed s = true → wg s = 0 ∧ closer s = CExit.
Proof.
  intros HI Hc. pose proof (inv_closer _ HI) as H. red in H.
  destruct (closer s); intuition congruence.
Qed.

Lemma step_I_closer s a s' : Inv s → step a s = Some s' → I_closer s'.
Proof.
  intros HI Hs. pose proof (inv_closer _ HI) as Hc. pose proof (inv_main _ HI) as Hm.
  pose proof (inv_len _ HI) as [Hl Hb].
  unfold I_closer, I_main in *.
  step_cases Hs; sset; goal_eqs; use_main; subst; sset;
    try (destruct (closer s) eqn:Ec); simpl in *;
    try (intuition (first [congruence | lia | done])).
  destruct (main s); simpl in *; intuition.
Qed.

Lemma step_I_main s a s' : Inv s → step a s = Some s' → I_main s'.
Proof.
  intros HI Hs. pose proof (inv_closer _ HI) as Hc. pose proof (inv_main _ HI) as Hm.
  pose proof (inv_len _ HI) as [Hl Hb]. pose proof (inv_wg _ HI) as Hw.
  unfold I_closer, I_main, I_wg in *.
  destruct a; simpl in Hs.
  - step_cases Hs; sset; goal_eqs; use_main; subst; sset; auto;
      unfold final_result; sset; goal_eqs; tauto.
  - step_cases Hs; sset; goal_eqs; use_main; subst; sset; auto.
  - assert (wg s = 0 → False) as Hno.
    { intros Hz. by rewrite (no_worker_step _ idx HI Hz) in Hs. }
    assert (main s' = main s) as ->.
    { unfold step_worker in Hs. step_cases Hs; by sset. }
    destruct (main s) eqn:Em; try done.
    + subst s. by destruct Hno.
    + destruct Hm as [_ Hcl]. destruct Hno. by apply closed_wg.
    + destruct Hno. destruct Hm as [[Ec _]|(_ & Hcl & _)]; [|by apply closed_wg].
      rewrite Ec in Hc. destruct Hc as (_ & _ & [[]|[HN _]]).
      simpl in Hl. rewrite HN in Hl. apply nil_length_inv in Hl.
      by rewrite Hw, Hl.
  - pose proof (closed_wg s HI) as Hcl.
    step_cases Hs; sset; goal_eqs; destruct (main s) eqn:Em; sset; auto;
      try (subst s; done); try (destruct Hm as [_ Hm]); try (destruct (Hcl Hm); congruence).
    all: destruct Hm as [[Ec _]|(_ & Hm & _)];
      [congruence|destruct (Hcl Hm); congruence].
Qed.

Lemma step_I_err s a s' : Inv s → step a s = Some s' → I_err s'.
Proof.
  intros HI Hs. pose proof (inv_err _ HI) as He. pose proof (inv_result _ HI) as Hr.
  unfold I_err, I_result in *.
  step_cases Hs; sset; goal_eqs; try done.
  all: try (intros e' [?|?]; simplify_eq; by eauto).
  intros e' [?|?]; simplify_eq; [|by eauto].
  destruct (Hr idx (WSelect e) (inr e)) as (p' & Hp' & Hf); [done..|].
  simplify_eq. by eauto 6.
Qed.

Lemma calls_ok_spawn ws cs : calls_ok ws cs → calls_ok (ws ++ [WFetch]) cs.
Proof.
  intros (Hsound & Hnd & Hok). split_and!; [|done|].
  - intros c Hc. destruct (Hsound c Hc) as (w & Hw & Hcw).
    exists w. split; [|done]. by apply lookup_app_l_Some.
  - intros j w Hj Hrep. apply lookup_app_Some in Hj as [Hj|[_ Hj]]; [by eauto|].
    apply list_lookup_singleton_Some in Hj as [_ <-]. done.
Qed.

(** A step of a goroutine that does not invoke the callback. *)
Lemma calls_ok_silent ws cs idx w w' :
  calls_ok ws cs → ws !! idx = Some w →
  (∀ c, has_called w c → has_called w' c) →
  (reported_ok w' → reported_ok w) →
  calls_ok (<[idx:=w']> ws) cs.
Proof.
  intros (Hsound & Hnd & Hok) Hw Hcall Hrep. split_and!; [|done|].
  - intros c Hc. destruct (Hsound c Hc) as (w0 & Hw0 & Hcw).
    destruct (decide (c_progress c = idx)) as [E|E].
    + exists w'. rewrite E in *. simplify_eq.
      rewrite list_lookup_insert_eq by (by eapply lookup_lt_Some). auto.
    + exists w0. by rewrite list_lookup_insert_ne.
  - intros j w0 Hj Hr. destruct (decide (j = idx)) as [->|E].
    + rewrite list_lookup_insert_eq in Hj by (by eapply lookup_lt_Some).
      simplify_eq. eauto.
    + rewrite list_lookup_insert_ne in Hj by done. eauto.
Qed.

(** A step of a goroutine that begins its invocation [c0]. *)
Lemma calls_ok_call ws cs idx w w' c0 :
  calls_ok ws cs → ws !! idx = Some w →
  (∀ c, ¬ has_called w c) → ¬ reported_ok w →
  c_progress c0 = idx → has_called w' c0 →
  (reported_ok w' → c0 = mkCall 1 idx None) →
  calls_ok (<[idx:=w']> ws) (cs ++ [c0]).
Proof.
  intros (Hsound & Hnd & Hok) Hw Hnc Hnr Hc0 Hcall Hrep. split_and!.
  - intros c [Hc|Hc%list_elem_of_singleton]%elem_of_app.
    + destruct (Hsound c Hc) as (w0 & Hw0 & Hcw).
      destruct (decide (c_progress c = idx)) as [E|E].
      * rewrite E in *. simplify_eq. by destruct (Hnc c).
      * exists w0. by rewrite list_lookup_insert_ne.
    + subst c. exists w'.
      by rewrite Hc0, list_lookup_insert_eq by (by eapply lookup_lt_Some).
  - rewrite fmap_app. simpl. apply NoDup_app. split_and!; [done| |apply NoDup_singleton].
    intros i Hi ->%list_elem_of_singleton.
    apply list_elem_of_fmap in Hi as (c & E & Hc).
    destruct (Hsound c Hc) as (w0 & Hw0 & Hcw).
    rewrite <- E, Hc0 in Hw0. simplify_eq. by destruct (Hnc c).
  - intros j w0 Hj Hr. apply elem_of_app.
    destruct (decide (j = idx)) as [->|E].
    + rewrite list_lookup_insert_eq in Hj by (by eapply lookup_lt_Some).
      simplify_eq. right. apply list_elem_of_singleton. symmetry. auto.
    + rewrite list_lookup_insert_ne in Hj by done. left. eauto.
Qed.

Lemma step_I_calls s a s' : Inv s → step a s = Some s' → I_calls s'.
Proof.
  intros HI Hs. pose proof (inv_calls _ HI) as Hc. unfold I_calls in *.
  step_cases Hs; sset; goal_eqs; try done.
  - by apply calls_ok_spawn.
  - by eapply calls_ok_silent.
  - by eapply calls_ok_silent.
  - by eapply calls_ok_silent.
  - by eapply calls_ok_silent.
  - eapply calls_ok_call; [done|done|by intros ? ?|by intros ?|done..].
  - by eapply calls_ok_silent.
  - eapply calls_ok_call; [done|done|by intros ? ?|by intros ?|done..].
  - eapply calls_ok_silent; [done..| |]; by destruct r.
  - eapply calls_ok_silent; [done..| |]; by destruct r.
  - eapply calls_ok_silent; [done..| |]; by destruct r.
Qed.

Lemma some_past_select_insert ws idx w w' :
  ws !! idx = Some w → (past_select w' → past_select w) →
  some_past_select (<[idx:=w']> ws) → some_past_select ws.
Proof.
  intros Hw Hback (j & w0 & Hj & Hp). destruct (decide (j = idx)) as [->|E].
  - rewrite list_lookup_insert_eq in Hj by (by eapply lookup_lt_Some).
    simplify_eq. exists idx, w. auto.
  - rewrite list_lookup_insert_ne in Hj by done. by exists j, w0.
Qed.

Lemma error_shown_insert ws cs idx w w' :
  ws !! idx = Some w → (∀ e, w ≠ WCallErr e) →
  error_shown ws cs → error_shown (<[idx:=w']> ws) cs.
Proof.
  intros Hw Hne [(j & e & Hj)|Hc]; [left|by right].
  exists j, e. rewrite list_lookup_insert_ne; [done|].
  intros ->. simplify_eq. by destruct (Hne e).
Qed.

Lemma error_shown_app ws cs cs' : error_shown ws cs → error_shown ws (cs ++ cs').
Proof.
  intros [?|(c & Hc & ?)]; [by left|right]. exists c. split; [|done].
  apply elem_of_app. by left.
Qed.

Lemma error_shown_spawn ws cs : error_shown ws cs → error_shown (ws ++ [WFetch]) cs.
Proof.
  intros [(j & e & Hj)|?]; [left|by right]. exists j, e. by apply lookup_app_l_Some.
Qed.

Lemma some_past_select_spawn ws : some_past_select (ws ++ [WFetch]) → some_past_select ws.
Proof.
  intros (j & w & Hj & Hp). apply lookup_app_Some in Hj as [Hj|[_ Hj]]; [by exists j, w|].
  apply list_lookup_singleton_Some in Hj as [_ <-]. done.
Qed.

Lemma step_I_errcall s a s' : Inv s → step a s = Some s' → I_errcall s'.
Proof.
  intros HI Hs. pose proof (inv_errcall _ HI) as He. unfold I_errcall in *.
  step_cases Hs; sset; goal_eqs; try done.
  all: try (intros HP; apply He; destruct HP as [?|[?|?]]; by eauto).
  all: intros HP.
  - apply error_shown_spawn, He.
    destruct HP as [?|[?|?%some_past_select_spawn]]; auto.
  - eapply error_shown_insert; [done|done|]. apply He.
    destruct HP as [?|[?|HP]]; auto. right; right.
    eapply some_past_select_insert; [done| |done]. by simpl.
  - eapply error_shown_insert; [done|done|]. apply He.
    destruct HP as [?|[?|HP]]; auto. right; right.
    eapply some_past_select_insert; [done| |done]. by simpl.
  - eapply error_shown_insert; [done|done|]. apply He. left. by eexists.
  - left. exists idx, e. by rewrite list_lookup_insert_eq by (by eapply lookup_lt_Some).
  - right. eexists. split; [apply elem_of_app; right; by apply list_elem_of_singleton|].
    by eexists.
  - eapply error_shown_insert; [done|done|]. apply He.
    destruct HP as [?|[?|HP]]; auto. right; right.
    eapply some_past_select_insert; [done| |done]. by simpl.
  - apply error_shown_app. eapply error_shown_insert; [done|done|]. apply He.
    destruct HP as [?|[?|HP]]; auto. right; right.
    eapply some_past_select_insert; [done| |done]. by simpl.
  - eapply error_shown_insert; [done|done|]. apply He.
    destruct HP as [?|[?|HP]]; auto. right; right.
    eapply some_past_select_insert; [done| |done]. by destruct r.
  - eapply error_shown_insert; [done|done|]. apply He.
    destruct HP as [?|[?|HP]]; auto. right; right.
    eapply some_past_select_insert; [done| |done]. by destruct r.
  - eapply error_shown_insert; [done|done|]. apply He.
    destruct HP as [?|[?|HP]]; auto. right; right.
    eapply some_past_select_insert; [done| |done]. by destruct r.
Qed.

(** ** The invariant holds in every state a schedule reaches *)

Lemma Inv_step s a s' : Inv s → step a s = Some s' → Inv s'.
Proof.
  intros HI Hs. split.
  - by eapply step_I_len.
  - by eapply step_I_guard.
  - by eapply step_I_wg.
  - by eapply step_I_result.
  - by eapply step_I_files.
  - by eapply step_I_closer.
  - by eapply step_I_main.
  - by eapply step_I_err.
  - by eapply step_I_calls.
  - by eapply step_I_errcall.
Qed.

Lemma Inv_rtc s s' : Inv s → rtc (step_rel http_Get pages) s s' → Inv s'.
Proof.
  intros HI Hrtc. induction Hrtc as [|s1 s2 s3 [a Ha] _ IH]; [done|].
  apply IH. by eapply Inv_step.
Qed.

Lemma Inv_reachable s : reachable s → Inv s.
Proof. apply Inv_rtc, Inv_init. Qed.


(** ** Every run can be completed *)

(** What is left to do: the steps a goroutine has ahead of it, and one
    step of the main goroutine for each file waiting in [fileChan]. *)
Definition weight (w : wpc) : nat :=
  match w with
  | WFetch => 7
  | WSendFile _ => 6
  | WSelect _ => 5
  | WCallErr _ | WCallOk _ => 4
  | WInCallback _ => 3
  | WRelease _ => 2
  | WExit _ => 1
  | WDone _ => 0
  end.

Definition main_weight (m : mpc) : nat :=
  match m with
  | MEntry => 9 * N + 6
  | MGuard i => 9 * (N - i) + 4
  | MSpawn i => 9 * (N - i) + 3
  | MCollect => 3
  | MDrain => 2
  | MCheck => 1
  | MReturned _ _ => 0
  end.

Definition closer_weight (c : cpc) : nat :=
  match c with
  | CNotStarted | CWait => 3
  | CCloseDone => 2
  | CCloseFiles => 1
  | CExit => 0
  end.

Definition measure (s : state) : nat :=
  main_weight (main s) + sum_list_with weight (workers s) +
  closer_weight (closer s) + length (fileChan s).

Lemma live_or_done (ws : list wpc) :
  sum_list_with live ws = 0 ∨ ∃ i w, ws !! i = Some w ∧ live w = 1.
Proof.
  induction ws as [|w ws [IH|(i & w' & Hi & Hl)]]; [by left| |].
  - destruct (live w) eqn:E.
    + left. simpl. by rewrite E, IH.
    + right. exists 0, w. split; [done|]. by destruct w.
  - right. by exists (S i), w'.
Qed.

#[local] Instance has_returned_dec s : Decision (has_returned s).
Proof.
  unfold has_returned, returned. destruct (main s) as [| | | | | |fs err].
  all: try (right; intros (? & ? & ?); discriminate).
  left. by exists fs, err.
Defined.

(** A goroutine that has not ended can take its next step. *)
Lemma worker_progress s i w :
  Inv s → workers s !! i = Some w → live w = 1 →
  ∃ s', step (Worker i) s = Some s' ∧ measure s' < measure s.
Proof.
  intros HI Hw Hlive.
  destruct (inv_len _ HI) as [Hlen Hb]. destruct (inv_guard _ HI) as [Hg _].
  pose proof (inv_wg _ HI) as Hwg. pose proof (inv_files _ HI) as Hf.
  red in Hwg, Hf. unfold slots_held in Hg.
  assert (i < N) as Hi by (apply lookup_lt_Some in Hw; lia).
  destruct (lookup_lt_is_Some_2 pages i Hi) as [p Hp].
  pose proof (sum_list_with_lookup holding _ _ _ Hw) as Hh.
  pose proof (sum_list_with_lookup live _ _ _ Hw) as Hl.
  assert (∀ w', measure (set_workers (<[i:=w']> (workers s)) s) + weight w
                = measure s + weight w') as Hm.
  { intros w'. unfold measure. sset.
    pose proof (sum_list_with_insert weight _ _ _ w' Hw). lia. }
  simpl. unfold step_worker. rewrite Hw, Hp.
  destruct w; simpl in *; try done.
  - destruct (fetch p) as [f|e]; eexists; (split; [done|]).
    + specialize (Hm (WSendFile f)). simpl in Hm. lia.
    + specialize (Hm (WSelect e)). simpl in Hm. lia.
  - destruct (errChan s); eexists; (split; [done|]).
    + specialize (Hm (WRelease (inr e))). simpl in Hm. lia.
    + specialize (Hm (WCallErr e)). unfold measure in *. sset. simpl in Hm. lia.
  - eexists; split; [done|].
    specialize (Hm (WInCallback (inr e))). unfold measure in *. sset. simpl in Hm. lia.
  - pose proof (omap_length_lt sent _ _ _ Hw eq_refl) as Hlt.
    rewrite <- Hf, length_app in Hlt.
    rewrite decide_True by lia. eexists; split; [done|].
    specialize (Hm (WCallOk f)). unfold measure in *. sset.
    rewrite length_app. simpl in *. lia.
  - eexists; split; [done|].
    specialize (Hm (WInCallback (inl f))). unfold measure in *. sset. simpl in Hm. lia.
  - eexists; split; [done|]. specialize (Hm (WRelease r)). simpl in Hm. lia.
  - destruct (guard s) as [|g] eqn:Eg; [lia|]. eexists; split; [done|].
    specialize (Hm (WExit r)). unfold measure in *. sset. simpl in Hm. lia.
  - destruct (wg s) as [|n] eqn:En; [lia|]. eexists; split; [done|].
    specialize (Hm (WDone r)). unfold measure in *. sset. simpl in Hm. lia.
Qed.

(** When every goroutine has ended, the main or the closing goroutine
    can take a step. *)
Lemma main_progress s :
  Inv s → sum_list_with live (workers s) = 0 → ¬ has_returned s →
  ∃ a s', step a s = Some s' ∧ measure s' < measure s.
Proof.
  intros HI Hdone Hnr.
  destruct (inv_len _ HI) as [Hlen Hb]. destruct (inv_guard _ HI) as [Hg _].
  pose proof (inv_wg _ HI) as Hwg. pose proof (inv_closer _ HI) as Hc.
  pose proof (inv_main _ HI) as Hm.
  red in Hwg, Hc, Hm. unfold slots_held in Hg.
  pose proof (sum_list_with_le holding live (workers s)) as Hhl.
  assert (sum_list_with holding (workers s) = 0) as Hh.
  { enough (sum_list_with holding (workers s) ≤ sum_list_with live (workers s)) by lia.
    apply Hhl. intros []; simpl; lia. }
  unfold measure.
  destruct (main s) eqn:Em; simpl in *.
  - (* MEntry *)
    exists Main. simpl. unfold step_main. rewrite Em. subst s.
    destruct (decide (N = 0)); eexists; (split; [done|]); sset; goal_eqs; simpl; lia.
  - (* MGuard *)
    exists Main. simpl. unfold step_main. rewrite Em.
    destruct (pages !! i) eqn:Ep.
    + apply lookup_lt_Some in Ep.
      rewrite decide_True by (unfold guardCap; lia).
      eexists; split; [done|]. sset. goal_eqs. simpl. lia.
    + destruct (closer s); simpl in Hc; try tauto.
      eexists; split; [done|]. sset. goal_eqs. simpl. lia.
  - (* MSpawn *)
    exists Main. simpl. unfold step_main. rewrite Em.
    eexists; split; [done|]. sset. rewrite sum_list_with_app. simpl. lia.
  - (* MCollect *)
    destruct (errChan s) as [e|] eqn:Ee.
    { exists (Select RecvErr). simpl. unfold step_select. rewrite Em, Ee.
      eexists; split; [done|]. sset. goal_eqs. simpl. lia. }
    destruct (fileChan s) as [|f rest] eqn:Ef.
    2:{ exists (Select RecvFile). simpl. unfold step_select. rewrite Em, Ef.
        eexists; split; [done|]. sset. goal_eqs. simpl. lia. }
    destruct (done s) eqn:Ed.
    { exists (Select RecvDone). simpl. unfold step_select. rewrite Em, Ed.
      eexists; split; [done|]. sset. goal_eqs. simpl. lia. }
    exists Closer. simpl. unfold step_closer.
    destruct (closer s); simpl in Hc; try (exfalso; intuition congruence).
    + rewrite decide_True by lia. eexists; split; [done|]. sset. goal_eqs. simpl. lia.
    + eexists; split; [done|]. sset. goal_eqs. simpl. lia.
  - (* MDrain *)
    destruct (fileChan s) as [|f rest] eqn:Ef.
    2:{ exists Main. simpl. unfold step_main. rewrite Em, Ef.
        eexists; split; [done|]. sset. goal_eqs. simpl. lia. }
    destruct (fileChanClosed s) eqn:Ed.
    { exists Main. simpl. unfold step_main. rewrite Em, Ef, Ed.
      eexists; split; [done|]. sset. goal_eqs. simpl. lia. }
    exists Closer. simpl. unfold step_closer.
    destruct (closer s); simpl in Hc; try (exfalso; intuition congruence).
    + rewrite decide_True by lia. eexists; split; [done|]. sset. goal_eqs. simpl. lia.
    + eexists; split; [done|]. sset. goal_eqs. simpl. lia.
    + eexists; split; [done|]. sset. goal_eqs. simpl. lia.
  - (* MCheck *)
    exists Main. simpl. unfold step_main. rewrite Em.
    destruct (downloadErr s); eexists; (split; [done|]); sset; goal_eqs; simpl; lia.
  - destruct Hnr. by exists files0, err.
Qed.

Lemma progress s :
  Inv s → ¬ has_returned s → ∃ a s', step a s = Some s' ∧ measure s' < measure s.
Proof.
  intros HI Hnr. destruct (live_or_done (workers s)) as [Hd|(i & w & Hw & Hl)].
  - by apply main_progress.
  - destruct (worker_progress s i w HI Hw Hl) as (s' & Hs & Hlt). by exists (Worker i), s'.
Qed.

(** From every state that satisfies the invariant, some schedule leads
    [FetchChapter] to its return. *)
Lemma can_return s : Inv s → ∃ s', rtc (step_rel http_Get pages) s s' ∧ has_returned s'.
Proof.
  remember (measure s) as n eqn:En. revert s En.
  induction n as [n IH] using lt_wf_ind. intros s -> HI.
  destruct (decide (has_returned s)) as [Hr|Hnr].
  - exists s. split; [apply rtc_refl|done].
  - destruct (progress s HI Hnr) as (a & s' & Hs & Hlt).
    destruct (IH _ Hlt s' eq_refl) as (s'' & Hrtc & Hret); [by eapply Inv_step|].
    exists s''. split; [|done]. eapply rtc_l; [by exists a|done].
Qed.

(** A state in which [FetchChapter] has returned takes no further step. *)
Lemma returned_final s a : Inv s → has_returned s → step a s = None.
Proof.
  intros HI (fs & err & Hr). red in Hr.
  pose proof (inv_main _ HI) as Hm. pose proof (inv_closer _ HI) as Hc.
  pose proof (inv_len _ HI) as [Hl _]. pose proof (inv_wg _ HI) as Hw.
  red in Hm, Hc, Hw. rewrite Hr in Hm, Hc, Hl. simpl in Hl.
  assert (wg s = 0 ∧ (closer s = CNotStarted ∨ closer s = CExit)) as [Hwg Hcl].
  { destruct Hm as [[Ec _]|(_ & Hcl & _)].
    - rewrite Ec in Hc. destruct Hc as (_ & _ & [[]|[HN _]]).
      rewrite HN in Hl. apply nil_length_inv in Hl. rewrite Hw, Hl. auto.
    - destruct (closed_wg s HI Hcl). auto. }
  destruct a; simpl.
  - unfold step_main. by rewrite Hr.
  - unfold step_select. by rewrite Hr.
  - by apply no_worker_step.
  - unfold step_closer. by destruct Hcl as [-> | ->].
Qed.

(** ** What holds when FetchChapter has returned *)

(** Every page goroutine has ended, with the result of its fetch. *)
Lemma returned_workers s :
  Inv s → has_returned s → workers s = (λ p, WDone (fetch p)) <$> pages.
Proof.
  intros HI (fs & err & Hr). red in Hr.
  pose proof (inv_main _ HI) as Hm. pose proof (inv_closer _ HI) as Hc.
  pose proof (inv_len _ HI) as [Hl _]. pose proof (inv_wg _ HI) as Hw.
  pose proof (inv_result _ HI) as Hres.
  red in Hm, Hc, Hw, Hres. rewrite Hr in Hm, Hc, Hl. simpl in Hl.
  assert (wg s = 0) as Hwg.
  { destruct Hm as [[Ec _]|(_ & Hcl & _)]; [|by apply closed_wg].
    rewrite Ec in Hc. destruct Hc as (_ & _ & [[]|[HN _]]).
    rewrite HN in Hl. apply nil_length_inv in Hl. by rewrite Hw, Hl. }
  apply list_eq. intros i. rewrite list_lookup_fmap.
  destruct (workers s !! i) as [w|] eqn:Ew.
  - pose proof (sum_list_with_zero live _ _ _ ltac:(by rewrite <- Hw) Ew) as Hlive.
    destruct w; try done.
    destruct (Hres i _ r Ew eq_refl) as (p & Hp & ->). by rewrite Hp.
  - apply lookup_ge_None in Ew. rewrite Hl in Ew.
    by rewrite (proj2 (lookup_ge_None pages i)).
Qed.

(** The files of the pages whose fetch succeeds, in the order of the
    pages. *)
Definition fetched : list File :=
  omap (λ p, match fetch p with inl f => Some f | inr _ => None end) pages.

(** The local [files] holds exactly the fetched files, in the order they
    were received, and [fileChan] is empty. *)
Lemma returned_files s :
  Inv s → has_returned s → files s ≡ₚ fetched ∧ fileChan s = [].
Proof.
  intros HI Hret. pose proof (returned_workers s HI Hret) as Hws.
  destruct Hret as (fs & err & Hr). red in Hr.
  pose proof (inv_main _ HI) as Hm. pose proof (inv_files _ HI) as Hf.
  pose proof (inv_closer _ HI) as Hc.
  red in Hm, Hf, Hc. rewrite Hr in Hm, Hc.
  assert (omap sent (workers s) = fetched) as Hsent.
  { rewrite Hws. unfold fetched. clear.
    induction pages as [|p ps IH]; csimpl; [done|].
    destruct (fetch p); simpl; by rewrite IH. }
  rewrite Hsent in Hf.
  assert (fileChan s = []) as Hfc.
  { destruct Hm as [[Ec Hcalls]|(? & _)]; [|done].
    rewrite Ec in Hc. destruct Hc as (_ & _ & [[]|[HN _]]).
    apply nil_length_inv in HN. unfold fetched in Hf. rewrite HN in Hf.
    apply Permutation_nil_r in Hf. by apply app_eq_nil in Hf as [_ ?]. }
  by rewrite Hfc, (right_id_L [] (++)) in Hf.
Qed.

(** What is returned: the error taken from [errChan] if one was taken,
    the sorted files otherwise. *)
Lemma returned_result s fs err :
  Inv s → returned fs err s →
  match downloadErr s with
  | Some e => fs = None ∧ err = Some e
  | None => fs = Some (sortStable (files s)) ∧ err = None
  end.
Proof.
  intros HI Hr. pose proof (returned_files s HI ltac:(by exists fs, err)) as [Hf Hfc].
  red in Hr.
  pose proof (inv_main _ HI) as Hm. pose proof (inv_closer _ HI) as Hc.
  pose proof (inv_err _ HI) as He.
  red in Hm, Hc, He. rewrite Hr in Hm, Hc.
  destruct Hm as [[Ec Hcalls]|(_ & _ & Hfin)].
  - rewrite Ec in Hc. destruct Hc as (_ & _ & [[]|[HN Hres]]). simplify_eq.
    apply nil_length_inv in HN.
    destruct (downloadErr s) as [e|] eqn:Ee.
    + destruct (He e) as (i & p & _ & Hp & _); [by right|]. by rewrite HN in Hp.
    + unfold fetched in Hf. rewrite HN in Hf. apply Permutation_nil_r in Hf.
      by rewrite Hf.
  - unfold final_result in Hfin. destruct (downloadErr s); by simplify_eq.
Qed.

(** ** The result when every fetch succeeds *)

(** The fetch of a page succeeds; it fails. *)
Definition succeeds (p : grabber.Page) : Prop := ∃ f, fetch p = inl f.
Definition fails (p : grabber.Page) : Prop := ∃ e, fetch p = inr e.

(** The page number a file of page [p] carries. *)
Definition pageno (p : grabber.Page) : Z := uint (grabber.Number p).

Lemma uint_id n : (0 ≤ n < 2 ^ 63)%Z → uint n = n.
Proof. intros Hn. unfold uint. apply Z.mod_small. lia. Qed.

(** A page number that is not negative is the number its file carries. *)
Lemma pageno_nonneg :
  Forall (λ p, (0 ≤ grabber.Number p < 2 ^ 63)%Z) pages →
  pageno <$> pages = grabber.Number <$> pages.
Proof.
  induction 1 as [|p ps Hp _ IH]; csimpl; [done|].
  unfold pageno at 1. by rewrite (uint_id _ Hp), IH.
Qed.

Lemma fetch_Page p f : fetch p = inl f → Page f = pageno p.
Proof.
  unfold fetch, FetchFile, pageno. destruct (http_Get _); intros; by simplify_eq.
Qed.

Lemma fetched_all :
  Forall succeeds pages → length fetched = N ∧ Page <$> fetched = pageno <$> pages.
Proof.
  unfold fetched. induction 1 as [|p ps [f Hf] _ [IHl IHp]]; csimpl; [done|].
  rewrite Hf. csimpl. rewrite IHl, IHp, (fetch_Page p f Hf). done.
Qed.

Lemma no_error_taken s :
  Forall succeeds pages → Inv s → errChan s = None ∧ downloadErr s = None.
Proof.
  intros Hall HI. pose proof (inv_err _ HI) as He. red in He.
  rewrite Forall_lookup in Hall.
  assert (∀ e, errChan s = Some e ∨ downloadErr s = Some e → False) as Hno.
  { intros e H. destruct (He e H) as (i & p & e0 & Hp & Hf & _).
    destruct (Hall i p Hp) as [f Hs]. congruence. }
  split.
  - destruct (errChan s) as [e|]; [destruct (Hno e)|]; auto.
  - destruct (downloadErr s) as [e|]; [destruct (Hno e)|]; auto.
Qed.

(** C1.  When the fetch of every page of the chapter succeeds, every run
    of [FetchChapter] can be completed and returns, whatever the
    schedule, no error and exactly one file per page: the fetched files
    in ascending order of page number, the page numbers being those of
    the pages (as [uint]; the numbers themselves when none is negative).
    When the pages come with strictly ascending numbers, as
    1, 2, ..., N, the files come in the order of the pages.  For a chapter
    without pages the list is empty. *)
Theorem FetchChapter_all_pages :
  Forall succeeds pages →
  (∀ s, reachable s → ∃ s', rtc (step_rel http_Get pages) s s' ∧ has_returned s') ∧
  (∀ s fs err, reachable s → returned fs err s →
     err = None ∧
     ∃ l, fs = Some l ∧ length l = N ∧ l ≡ₚ fetched ∧
          Sorted Z.le (Page <$> l) ∧ Page <$> l ≡ₚ pageno <$> pages ∧
          (Forall (λ p, (0 ≤ grabber.Number p < 2 ^ 63)%Z) pages →
           Page <$> l ≡ₚ grabber.Number <$> pages) ∧
          (StronglySorted Z.lt (pageno <$> pages) → l = fetched) ∧
          (N = 0 → l = [])).
Proof.
  intros Hall. split.
  { intros s Hs. by apply can_return, Inv_reachable. }
  intros s fs err Hs Hr. apply Inv_reachable in Hs.
  pose proof (returned_result s fs err Hs Hr) as Hres.
  destruct (no_error_taken s Hall Hs) as [_ Hd]. rewrite Hd in Hres.
  destruct Hres as [-> ->]. split; [done|].
  destruct (returned_files s Hs ltac:(by exists (Some (sortStable (files s))), None))
    as [Hf _].
  destruct (fetched_all Hall) as [Hlen Hpg].
  assert (sortStable (files s) ≡ₚ fetched) as Hperm by (by rewrite sortStable_perm).
  exists (sortStable (files s)). split_and!; [done| | done | | | | |].
  - by rewrite Hperm.
  - eapply Sorted_fmap; [|apply sortStable_sorted]. done.
  - by rewrite Hperm, Hpg.
  - intros Hpos. by rewrite Hperm, Hpg, (pageno_nonneg Hpos).
  - intros Hasc. apply sorted_files_unique; [apply sortStable_sorted| |done].
    by rewrite Hpg.
  - intros HN. apply nil_length_inv. by rewrite Hperm, Hlen.
Qed.

(** ** The admission guard *)

(** C3.  In every state of every run, at most five fetches are in
    flight: the goroutines that hold a slot of [guard] are exactly those
    that have not yet executed [<-guard], the main goroutine fills at
    most one slot ahead, and [guard] has five slots.  A goroutine that has
    reached [<-guard], after a fetch that succeeded or one that failed,
    can always execute it, which frees a slot; every run can be completed,
    and when [FetchChapter] has returned no slot is held. *)
Theorem FetchChapter_bounded_concurrency s :
  reachable s →
  in_flight s ≤ 5 ∧
  guard s = slots_held s + spawn_pending (main s) ∧ guard s ≤ guardCap ∧
  (∀ i r, workers s !! i = Some (WRelease r) →
     ∃ s', step (Worker i) s = Some s' ∧
           workers s' !! i = Some (WExit r) ∧ S (guard s') = guard s) ∧
  (has_returned s → guard s = 0 ∧ slots_held s = 0) ∧
  (∃ s', rtc (step_rel http_Get pages) s s' ∧ has_returned s').
Proof.
  intros Hs. apply Inv_reachable in Hs.
  destruct (inv_guard _ Hs) as [Hg Hcap].
  split_and!; [|done|done| | |by apply can_return].
  - unfold in_flight, slots_held, guardCap in *.
    pose proof (sum_list_with_le fetching holding (workers s)) as Hle.
    enough (sum_list_with fetching (workers s) ≤ sum_list_with holding (workers s)) by lia.
    apply Hle. intros []; simpl; lia.
  - intros i r Hw. unfold slots_held in Hg.
    pose proof (sum_list_with_lookup holding _ _ _ Hw) as Hh. simpl in Hh.
    destruct (worker_progress s i _ Hs Hw eq_refl) as (s' & Hstep & _).
    exists s'. split; [done|]. simpl in Hstep. unfold step_worker in Hstep.
    rewrite Hw in Hstep. destruct (pages !! i); [|done].
    destruct (guard s) as [|g]; [done|]. simplify_eq. sset.
    by rewrite list_lookup_insert_eq by (by eapply lookup_lt_Some).
  - intros Hret. pose proof (returned_workers s Hs Hret) as Hws.
    assert (slots_held s = 0) as Hz.
    { unfold slots_held. rewrite Hws. clear. induction pages; csimpl; auto. }
    destruct Hret as (fs & err & Hr). red in Hr. rewrite Hr in Hg. simpl in Hg. lia.
Qed.

(** ** The progress callback *)

Lemma returned_lookup s i p :
  Inv s → has_returned s → pages !! i = Some p →
  workers s !! i = Some (WDone (fetch p)).
Proof.
  intros HI Hret Hp. rewrite (returned_workers s HI Hret), list_lookup_fmap.
  by rewrite Hp.
Qed.

(** C4, as the code has it.  When [FetchChapter] has returned, the
    callback has been invoked once for every page whose fetch succeeded,
    with [(1, idx, nil)], and at most once for a page whose fetch failed,
    with [(idx, idx, err)]: a failure is reported only by a goroutine whose
    error [errChan] accepted, and at least one is reported when some fetch
    failed.  So there are at most N invocations, exactly N when every
    fetch succeeded, and none for a chapter without pages. *)
Theorem FetchChapter_callback_invocations s :
  reachable s → has_returned s →
  NoDup (c_progress <$> calls s) ∧
  (∀ c, c ∈ calls s →
     ∃ p, pages !! c_progress c = Some p ∧ c = call_of (c_progress c) (fetch p)) ∧
  (∀ i p, pages !! i = Some p → succeeds p → mkCall 1 i None ∈ calls s) ∧
  (Exists fails pages → ∃ c, c ∈ calls s ∧ is_Some (c_err c)) ∧
  length (calls s) ≤ N ∧
  (Forall succeeds pages → length (calls s) = N) ∧
  (N = 0 → calls s = []).
Proof.
  intros Hs Hret. apply Inv_reachable in Hs.
  destruct (inv_calls _ Hs) as (Hsound & Hnd & Hok).
  pose proof (inv_errcall _ Hs) as Herr. red in Herr.
  pose proof (returned_workers s Hs Hret) as Hws.
  assert (∀ c, c ∈ calls s →
    ∃ p, pages !! c_progress c = Some p ∧ c = call_of (c_progress c) (fetch p)) as Hsound'.
  { intros c Hc. destruct (Hsound c Hc) as (w & Hw & Hcw).
    rewrite Hws, list_lookup_fmap in Hw.
    destruct (pages !! c_progress c) as [p|]; [|done]. simplify_eq/=. by exists p. }
  assert (∀ i p, pages !! i = Some p → succeeds p → mkCall 1 i None ∈ calls s) as Hok'.
  { intros i p Hp [f Hf]. apply (Hok i (WDone (fetch p))).
    - by apply returned_lookup.
    - by rewrite Hf. }
  assert (length (calls s) ≤ N) as Hle.
  { rewrite <- (length_fmap c_progress), <- (length_seq N 0).
    apply submseteq_length, NoDup_submseteq; [done|].
    intros i (c & -> & Hc)%list_elem_of_fmap.
    destruct (Hsound' c Hc) as (p & Hp & _). apply lookup_lt_Some in Hp.
    apply elem_of_seq. lia. }
  split_and!; [done|done|done| |done| |].
  - intros (p & Hp & [e He])%Exists_exists.
    apply list_elem_of_lookup in Hp as [i Hi].
    destruct Herr as [(j & e' & Hj)|Hc]; [|rewrite Hws in Hj|done].
    + right; right. exists i, (WDone (fetch p)). split; [by apply returned_lookup|].
      by rewrite He.
    + rewrite list_lookup_fmap in Hj. by destruct (pages !! j).
  - intros Hall. apply (anti_symm le); [done|].
    rewrite <- (length_fmap c_progress (calls s)), <- (length_seq N 0).
    apply submseteq_length, NoDup_submseteq; [apply NoDup_seq|].
    intros i Hi%elem_of_seq.
    destruct (lookup_lt_is_Some_2 pages i ltac:(lia)) as [p Hp].
    rewrite Forall_lookup in Hall.
    apply list_elem_of_fmap. exists (mkCall 1 i None). split; [done|].
    eapply Hok'; [done|]. by eapply Hall.
  - intros HN. apply nil_length_inv. lia.
Qed.

(** C10, as the code has it.  The callback is invoked by the goroutine
    of the page itself, while it still holds its slot of [guard], and
    nothing else orders the invocations: in every state of every run at
    most five invocations are executing, and the goroutines that are
    fetching or executing the callback are among those that hold a
    slot. *)
Theorem FetchChapter_callbacks_bounded s :
  reachable s →
  callbacks_running s + in_flight s ≤ slots_held s ∧ callbacks_running s ≤ 5.
Proof.
  intros Hs. apply Inv_reachable in Hs.
  destruct (inv_guard _ Hs) as [Hg Hcap]. unfold guardCap in Hcap.
  assert (callbacks_running s + in_flight s ≤ slots_held s); [|lia].
  unfold callbacks_running, in_flight, slots_held. clear.
  induction (workers s) as [|w ws IH]; simpl; [lia|].
  destruct w; simpl; lia.
Qed.

(** ** Schedules *)

(** The state a schedule leads to is reachable. *)
Lemma run_rtc sched s s' :
  run http_Get pages sched s = Some s' → rtc (step_rel http_Get pages) s s'.
Proof.
  revert s. induction sched as [|a sched IH]; simpl; intros s Hrun.
  - simplify_eq. apply rtc_refl.
  - destruct (step a s) as [s1|] eqn:Hs; [|done].
    eapply rtc_l; [by exists a|by apply IH].
Qed.

Lemma run_reachable sched s : run http_Get pages sched init = Some s → reachable s.
Proof. apply run_rtc. Qed.
End FetchChapter_invariant.

(* ===================================================================== *)
(** * FetchChapter on concrete chapters *)

Section FetchChapter_examples.
Import downloader.

(** A chapter of three pages, and one of two. *)
Definition three_pages : list grabber.Page :=
  [grabber.mkPage 1 "/page1.jpg"%string; grabber.mkPage 2 "/page2.jpg"%string; grabber.mkPage 3 "/page3.jpg"%string].

Definition two_pages : list grabber.Page :=
  [grabber.mkPage 1 "/page1.jpg"%string; grabber.mkPage 2 "/page2.jpg"%string].

(** Three networks: one serves every page, one answers 404 for page 2,
    one answers 404 for every page. *)
Definition serve_all (url : string) : response := Body [x41].

Definition serve_all_but_page2 (url : string) : response :=
  if decide (url = "/page2.jpg"%string) then GetFails (HttpError "404"%string) else Body [x41].

Definition serve_none (url : string) : response := GetFails (HttpError "404"%string).

(** A chapter of six pages: one more than [guard] has slots. *)
Definition six_pages : list grabber.Page :=
  (λ n, grabber.mkPage (Z.of_nat n) "/page.jpg"%string) <$> seq 1 6.

(** Six steps of the goroutine of page [idx]: from its start to its end. *)
Definition whole (idx : nat) : list action := replicate 6 (Worker idx).

(** The main goroutine starts both goroutines of [two_pages] and the
    closing goroutine, and reaches the select. *)
Definition start_two : list action := replicate 6 Main.

(** Both goroutines end and the channels are closed before the main
    goroutine executes the select; the select takes [<-done]. *)
Definition done_first : list action :=
  start_two ++ whole 0 ++ whole 1 ++ [Closer; Closer; Closer] ++
  [Select RecvDone; Main; Main; Main].

(** Both goroutines are inside the callback before either returns from
    it. *)
Definition both_calling : list action :=
  start_two ++ [Worker 0; Worker 0; Worker 0; Worker 1; Worker 1; Worker 1].

(** The main goroutine has started five goroutines of [six_pages]; none
    has taken a step. *)
Definition five_started : list action := replicate 11 Main.

(** Page 2 of two fails; the select takes the error. *)
Definition error_taken : list action :=
  start_two ++ whole 0 ++ whole 1 ++ [Closer; Closer; Closer] ++
  [Select RecvErr; Main; Main; Main].

(** The states these schedules lead to. *)
Definition state_five_started : state :=
  Eval vm_compute in default init (run serve_all six_pages five_started init).

Definition state_both_calling : state :=
  Eval vm_compute in default init (run serve_all two_pages both_calling init).

Definition state_error_taken : state :=
  Eval vm_compute in default init (run serve_all_but_page2 two_pages error_taken init).

(** C1, on a chapter of three pages that are all served: every run that
    returns, returns the three files in the order of the pages and no
    error. *)
Lemma FetchChapter_all_pages_witness :
  Forall (succeeds serve_all) three_pages ∧
  ∀ s fs err, reachable serve_all three_pages s → returned fs err s →
    fs = Some [mkFile [x41] 1; mkFile [x41] 2; mkFile [x41] 3] ∧ err = None.
Proof.
  assert (Forall (succeeds serve_all) three_pages) as Hall.
  { repeat constructor; eexists; reflexivity. }
  split; [done|]. intros s fs err Hs Hr.
  destruct (FetchChapter_all_pages serve_all three_pages Hall) as [_ H].
  destruct (H s fs err Hs Hr) as (-> & l & -> & _ & _ & _ & _ & _ & Hl & _).
  split; [|done]. rewrite Hl; [done|].
  repeat constructor.
Defined.

(** C2, where the code departs from it.  Page 2 of two fails.  On the
    schedule [done_first] the error waits in [errChan] when the select
    takes [<-done]; [FetchChapter] returns the file of page 1 and no
    error. *)
Theorem FetchChapter_loses_error :
  fails serve_all_but_page2 (grabber.mkPage 2 "/page2.jpg"%string) ∧
  ∃ s, run serve_all_but_page2 two_pages done_first init = Some s ∧
       returned (Some [mkFile [x41] 1]) None s ∧
       errChan s = Some (PageError 2 (HttpError "404"%string)).
Proof.
  split; [by eexists|]. eexists. split; [vm_compute; reflexivity|]. done.
Qed.

(** C3, with five goroutines of a chapter of six pages started: five
    fetches are in flight, [guard] is full, and the main goroutine cannot
    start the sixth. *)
Lemma FetchChapter_bounded_concurrency_witness :
  reachable serve_all six_pages state_five_started ∧
  (in_flight state_five_started ≤ 5 ∧
   guard state_five_started =
     slots_held state_five_started + spawn_pending (main state_five_started) ∧
   guard state_five_started ≤ guardCap ∧
   (∀ i r, workers state_five_started !! i = Some (WRelease r) →
      ∃ s', step serve_all six_pages (Worker i) state_five_started = Some s' ∧
            workers s' !! i = Some (WExit r) ∧ S (guard s') = guard state_five_started) ∧
   (has_returned state_five_started →
      guard state_five_started = 0 ∧ slots_held state_five_started = 0) ∧
   (∃ s', rtc (step_rel serve_all six_pages) state_five_started s' ∧ has_returned s')) ∧
  in_flight state_five_started = 5 ∧
  step serve_all six_pages Main state_five_started = None.
Proof.
  assert (reachable serve_all six_pages state_five_started) as Hreach.
  { apply (run_reachable _ _ five_started). vm_compute. reflexivity. }
  split; [done|]. split; [|by vm_compute].
  apply (FetchChapter_bounded_concurrency serve_all six_pages state_five_started Hreach).
Defined.

(** C4 as the code has it, on the run [error_taken]: one invocation
    for page 1, one for the failure of page 2. *)
Lemma FetchChapter_callback_invocations_witness :
  reachable serve_all_but_page2 two_pages state_error_taken ∧
  has_returned state_error_taken ∧
  calls state_error_taken = [mkCall 1 0 None; mkCall 1 1 (Some (HttpError "404"%string))] ∧
  NoDup (c_progress <$> calls state_error_taken) ∧
  length (calls state_error_taken) ≤ length two_pages.
Proof.
  assert (reachable serve_all_but_page2 two_pages state_error_taken) as Hreach.
  { apply (run_reachable _ _ error_taken). vm_compute. reflexivity. }
  assert (has_returned state_error_taken) as Hret.
  { exists None, (Some (PageError 2 (HttpError "404"%string))). reflexivity. }
  split; [done|]. split; [done|]. split; [done|].
  destruct (FetchChapter_callback_invocations serve_all_but_page2 two_pages
              state_error_taken Hreach Hret) as (Hnd & _ & _ & _ & Hle & _).
  split; done.
Defined.

(** C10 as the code has it, in the state of [both_calling]. *)
Lemma FetchChapter_callbacks_bounded_witness :
  reachable serve_all two_pages state_both_calling ∧
  callbacks_running state_both_calling + in_flight state_both_calling
    ≤ slots_held state_both_calling ∧
  callbacks_running state_both_calling ≤ 5.
Proof.
  assert (reachable serve_all two_pages state_both_calling) as Hreach.
  { apply (run_reachable _ _ both_calling). vm_compute. reflexivity. }
  split; [done|].
  apply (FetchChapter_callbacks_bounded serve_all two_pages state_both_calling Hreach).
Defined.

(** C4 fails as stated: both pages of two fail, the error of page 2
    finds [errChan] full, and [FetchChapter] returns after one invocation
    of the callback. *)
Lemma FetchChapter_one_call_for_two_pages :
  ∃ s, reachable serve_none two_pages s ∧ has_returned s ∧
       length (calls s) = 1 ∧ length two_pages = 2.
Proof.
  eexists. split; [|split; [|split]].
  - apply (run_reachable _ _ (start_two ++ replicate 3 (Worker 0) ++ replicate 4 (Worker 1)
      ++ replicate 3 (Worker 0) ++ [Closer; Closer; Closer; Select RecvErr; Main; Main])).
    vm_compute. reflexivity.
  - by eexists _, _.
  - done.
  - done.
Qed.

(** C10 fails as stated: two invocations of the callback execute at the
    same time. *)
Lemma FetchChapter_two_callbacks_at_once :
  ∃ s, reachable serve_all two_pages s ∧ callbacks_running s = 2.
Proof.
  eexists. split.
  - apply (run_reachable _ _ both_calling). vm_compute. reflexivity.
  - done.
Qed.

End FetchChapter_examples.

(* ===================================================================== *)
(** * ArchiveCBZ and the file system *)

Section packer_files.
Import packer.

Variable os : platform.

(** The entry [ArchiveCBZ] writes for a file. *)
Definition entry_of (file : downloader.File) : entry :=
  mkEntry (entry_name (downloader.Page file)) (downloader.Data file).

(** The invocations of the callback the loop makes from index [i]. *)
Fixpoint reports (progress : ProgressCallback) (i n : nat) : list call :=
  match n with
  | O => []
  | S n' =>
      match progress with
      | Some f => f 1 i ++ reports progress (S i) n'
      | None => []
      end
  end.

Lemma add_entry_lookup path e w es :
  fs w !! path = Some (Container es) →
  fs (add_entry path e w) !! path = Some (Container (es ++ [e])).
Proof. intros H. unfold add_entry. simpl. by rewrite lookup_alter_eq, H. Qed.

Lemma add_entry_other path e w p :
  p ≠ path → fs (add_entry path e w) !! p = fs w !! p.
Proof. intros H. unfold add_entry. simpl. by rewrite lookup_alter_ne. Qed.

Lemma report_fs progress page i w : fs (report progress page i w) = fs w.
Proof. by destruct progress. Qed.

(** The loop touches no path but that of the archive. *)
Lemma write_files_other path i files progress w p :
  p ≠ path → fs (write_files os path i files progress w).1 !! p = fs w !! p.
Proof.
  intros Hne. revert i w. induction files as [|file rest IH]; intros i w; simpl; [done|].
  destruct (create_fault os path _); [done|].
  destruct (write_fault os path _); cbn [fst snd].
  - by rewrite add_entry_other.
  - by rewrite IH, report_fs, add_entry_other.
Qed.

(** When the loop ends without an error, the archive has one more entry
    per file, in the order of the files, and the callback was invoked
    once per file. *)
Lemma write_files_ok path i files progress w w' es :
  fs w !! path = Some (Container es) →
  write_files os path i files progress w = (w', None) →
  fs w' !! path = Some (Container (es ++ (entry_of <$> files))) ∧
  log w' = log w ++ reports progress i (length files).
Proof.
  revert i w es. induction files as [|file rest IH]; intros i w es Hp Hw; simpl in *.
  - simplify_eq. by rewrite !(right_id_L [] (++)).
  - destruct (create_fault os path _); [done|].
    destruct (write_fault os path _); [done|].
    apply (IH _ _ (es ++ [entry_of file])) in Hw as [Hfs Hlog].
    + split.
      * by rewrite Hfs, <- (assoc_L (++)).
      * rewrite Hlog. destruct progress as [f|]; simpl.
        -- by rewrite <- app_assoc.
        -- by destruct (length rest).
    + rewrite report_fs. by apply add_entry_lookup.
Qed.

(** Without faults the loop ends without an error. *)
Lemma write_files_no_fault path i files progress w :
  (∀ name, create_fault os path name = None) →
  (∀ name, write_fault os path name = None) →
  (write_files os path i files progress w).2 = None.
Proof.
  intros Hc Hw. revert i w. induction files as [|file rest IH]; intros i w; simpl; [done|].
  by rewrite Hc, Hw.
Qed.

Lemma MkdirAll_preserves dir w p n :
  fs w !! p = Some n → fs (MkdirAll os dir w).1 !! p = Some n.
Proof.
  intros Hp. unfold MkdirAll. destruct (fs w !! dir) as [[]|] eqn:Hd; try done.
  destruct (mkdir_fault os dir); [done|]. simpl.
  rewrite lookup_insert_ne; [done|]. intros ->. congruence.
Qed.

Lemma MkdirAll_log dir w : log (MkdirAll os dir w).1 = log w.
Proof.
  unfold MkdirAll. destruct (fs w !! dir) as [[]|]; try done.
  by destruct (mkdir_fault os dir).
Qed.

(** [ArchiveCBZ] never changes what is at a path already: it only adds
    paths. *)
Lemma ArchiveCBZ_preserves filename files progress w p n :
  fs w !! p = Some n → fs (ArchiveCBZ os filename files progress w).1 !! p = Some n.
Proof.
  intros Hp. unfold ArchiveCBZ. destruct (decide (length files = 0)); [done|].
  set (dest := destination filename). set (dir := Dir os dest).
  assert (∃ w1 r, (if decide (dir = ".") then (w, None) else MkdirAll os dir w) = (w1, r) ∧
                  fs w1 !! p = Some n) as (w1 & r & -> & Hp1).
  { destruct (decide (dir = ".")); [by eauto|].
    destruct (MkdirAll os dir w) as [w1 r] eqn:Hm. exists w1, r. split; [done|].
    pose proof (MkdirAll_preserves dir w p n Hp) as H. by rewrite Hm in H. }
  destruct r; [done|]. unfold OpenFile.
  destruct (fs w1 !! dest) eqn:Hd; [done|].
  destruct (open_fault os dest); [done|].
  rewrite write_files_other by congruence. simpl.
  rewrite lookup_insert_ne; [done|]. congruence.
Qed.

(** When [ArchiveCBZ] returns no error, the list of files was not empty,
    nothing was at the destination, and now an archive is there whose
    entries are those of the files, in the order of the files; the callback
    was invoked once per file. *)
Lemma ArchiveCBZ_ok filename files progress w w' :
  ArchiveCBZ os filename files progress w = (w', None) →
  files ≠ [] ∧
  fs w' !! destination filename = Some (Container (entry_of <$> files)) ∧
  log w' = log w ++ reports progress 0 (length files).
Proof.
  unfold ArchiveCBZ. destruct (decide (length files = 0)); [done|].
  set (dest := destination filename). set (dir := Dir os dest).
  intros H.
  assert (∃ w1 r, (if decide (dir = ".") then (w, None) else MkdirAll os dir w) = (w1, r) ∧
                  log w1 = log w) as (w1 & r & Hm & Hlog).
  { destruct (decide (dir = ".")); [by eauto|].
    destruct (MkdirAll os dir w) as [w1 r] eqn:Hm. exists w1, r. split; [done|].
    pose proof (MkdirAll_log dir w) as Hl. by rewrite Hm in Hl. }
  rewrite Hm in H. destruct r; [done|]. unfold OpenFile in H.
  destruct (fs w1 !! dest) eqn:Hd; [done|].
  destruct (open_fault os dest); [done|].
  apply (write_files_ok _ _ _ _ _ _ []) in H as [Hfs Hl].
  - split; [by intros ->|]. split; [done|]. simpl in Hl. by rewrite Hl, Hlog.
  - simpl. by rewrite lookup_insert_eq.
Qed.

(** The destination can be written: nothing is there, its directory is
    the current one, exists or can be made, and no operation on the new
    file fails. *)
Definition can_archive (w : world) (dest : string) : Prop :=
  fs w !! dest = None ∧
  (Dir os dest = "." ∨ fs w !! Dir os dest = Some Directory ∨
   (fs w !! Dir os dest = None ∧ mkdir_fault os (Dir os dest) = None ∧ Dir os dest ≠ dest)) ∧
  open_fault os dest = None ∧
  (∀ name, create_fault os dest name = None) ∧
  (∀ name, write_fault os dest name = None).

Lemma ArchiveCBZ_succeeds filename files progress w :
  files ≠ [] → can_archive w (destination filename) →
  ∃ w', ArchiveCBZ os filename files progress w = (w', None).
Proof.
  intros Hne (Hfresh & Hdir & Hopen & Hcreate & Hwrite).
  unfold ArchiveCBZ. rewrite decide_False by (by destruct files).
  set (dest := destination filename) in *. set (dir := Dir os dest) in *.
  assert (∃ w1, (if decide (dir = ".") then (w, None) else MkdirAll os dir w) = (w1, None) ∧
                fs w1 !! dest = None) as (w1 & -> & Hd).
  { destruct (decide (dir = ".")); [by eauto|]. unfold MkdirAll.
    destruct Hdir as [?|[Hdir|(Hdir & Hm & Hne')]]; [done|..]; rewrite Hdir; [by eauto|].
    rewrite Hm. eexists. split; [done|]. simpl. by rewrite lookup_insert_ne. }
  unfold OpenFile. rewrite Hd, Hopen.
  pose proof (write_files_no_fault dest 0 files progress
    (mkWorld (<[dest:=Container []]> (fs w1)) (log w1)) Hcreate Hwrite) as Hr.
  destruct (write_files _ _ _ _ _ _) as [w' r]. simpl in Hr. subst r. by exists w'.
Qed.

(** C8.  [ArchiveCBZ] of an empty list of files returns the error
    "no files to pack", whatever the destination, and changes nothing: it
    creates no file and no directory, and does not invoke the callback. *)
Theorem ArchiveCBZ_nothing_to_pack filename progress w :
  ArchiveCBZ os filename [] progress w = (w, Some ErrNoFiles).
Proof. reflexivity. Qed.

(** The directory of the destination is there: it is the current
    directory, or a directory of the file system.  It is, whenever
    something is at the destination. *)
Definition directory_present (w : world) (dest : string) : Prop :=
  Dir os dest = "." ∨ fs w !! Dir os dest = Some Directory.

(** C7, as the code has it.  The destination of [ArchiveCBZ] is
    [filename] with [.cbz] appended when it does not end in it.  When
    something is at the destination, [ArchiveCBZ] of a list of files that
    is not empty returns the error "already exists" and changes nothing:
    what is at the destination stays as it is, and the callback is not
    invoked. *)
Theorem ArchiveCBZ_destination_exists filename files progress w n :
  files ≠ [] → fs w !! destination filename = Some n →
  directory_present w (destination filename) →
  ArchiveCBZ os filename files progress w
  = (w, Some (ErrExists (destination filename))).
Proof.
  intros Hne Hn Hdir. unfold ArchiveCBZ. rewrite decide_False by (by destruct files).
  set (dest := destination filename) in *. set (dir := Dir os dest) in *.
  assert ((if decide (dir = ".") then (w, None) else MkdirAll os dir w) = (w, None)) as ->.
  { destruct (decide (dir = ".")); [done|]. destruct Hdir as [?|Hdir]; [done|].
    unfold MkdirAll. fold dir in Hdir. by rewrite Hdir. }
  unfold OpenFile. by rewrite Hn.
Qed.

(** C5, as the code has it.  [ArchiveCBZ] writes the entries in the
    order of the files.  Of the files [{1, A}], [{3, B}], [{2, C}], in that
    order, it makes an archive whose entries are, in listing order,
    [001.jpg], [003.jpg], [002.jpg], with the contents A, B, C: each name is
    made of the page number of its file, not of its position. *)
Theorem ArchiveCBZ_out_of_order filename (A B C : bytes) progress w :
  can_archive w (destination filename) →
  ∃ w',
    ArchiveCBZ os filename
      [downloader.mkFile A 1; downloader.mkFile B 3; downloader.mkFile C 2] progress w
    = (w', None) ∧
    fs w' !! destination filename =
      Some (Container [mkEntry "001.jpg" A; mkEntry "003.jpg" B; mkEntry "002.jpg" C]).
Proof.
  intros Hcan.
  destruct (ArchiveCBZ_succeeds filename
    [downloader.mkFile A 1; downloader.mkFile B 3; downloader.mkFile C 2] progress w)
    as [w' Hw]; [done|done|].
  exists w'. split; [done|]. by apply ArchiveCBZ_ok in Hw as (_ & -> & _).
Qed.

(** ** ArchiveMultipleChapters *)

Section chapters.

Variables (baseDir : string) (chapters : gmap string (list downloader.File))
          (titles : gmap string string) (chapterNumbers : gmap string float64)
          (progress : ProgressCallback).

(** The files of a group, and the path of its container: the name the
    filename policy gives it, in [baseDir]. *)
Definition group (chapterKey : string) : list downloader.File :=
  default [] (chapters !! chapterKey).

Definition container_path (chapterKey : string) : string :=
  destination
    (Join os baseDir
       (GetCBZFilename os (default "" (titles !! chapterKey))
          (default (Finite false 0 0) (chapterNumbers !! chapterKey)) "")).

(** The container of a group has been written. *)
Definition written (chapterKey : string) (w : world) : Prop :=
  fs w !! container_path chapterKey = Some (Container (entry_of <$> group chapterKey)).

Lemma archive_chapters_preserves n keys w p nd :
  fs w !! p = Some nd →
  fs (archive_chapters os baseDir chapters titles chapterNumbers progress n keys w).1 !! p
  = Some nd.
Proof.
  revert n w. induction keys as [|k keys IH]; intros n w Hp; simpl; [done|].
  destruct (decide _); [by apply IH|].
  match goal with |- context [ArchiveCBZ os ?f ?fl ?pr w] =>
    pose proof (ArchiveCBZ_preserves f fl pr w p nd Hp) as H1;
    destruct (ArchiveCBZ os f fl pr w) as [w1 [e|]] end; simpl in *; [done|].
  by apply IH.
Qed.

Lemma archive_chapters_ok n keys w w' :
  archive_chapters os baseDir chapters titles chapterNumbers progress n keys w = (w', None) →
  ∀ k, k ∈ keys → group k ≠ [] → written k w'.
Proof.
  unfold written, container_path, group.
  revert n w. induction keys as [|k0 keys IH]; intros n w Hrun k Hk Hne.
  { by apply elem_of_nil in Hk. }
  simpl in Hrun.
  destruct (decide (length (default [] (chapters !! k0)) = 0)) as [Hz|Hz].
  - apply elem_of_cons in Hk as [->|Hk]; [|by eapply IH].
    by apply nil_length_inv in Hz.
  - match type of Hrun with context [ArchiveCBZ os ?f ?fl ?pr w] =>
      destruct (ArchiveCBZ os f fl pr w) as [w1 [e|]] eqn:Ha end; [done|].
    destruct (decide (k = k0)) as [->|Hkk].
    + apply ArchiveCBZ_ok in Ha as (_ & Hfs & _).
      pose proof (archive_chapters_preserves
        (n + length (default [] (chapters !! k0))) keys w1 _ _ Hfs) as Hp.
      by rewrite Hrun in Hp.
    + apply elem_of_cons in Hk as [?|Hk]; [done|]. by eapply IH.
Qed.

Lemma archive_chapters_err n keys w w' err :
  archive_chapters os baseDir chapters titles chapterNumbers progress n keys w
  = (w', Some err) →
  ∃ pre k post cause,
    keys = pre ++ k :: post ∧ err = ErrChapter k cause ∧
    (∀ k', k' ∈ pre → group k' ≠ [] → written k' w') ∧
    archive_chapters os baseDir chapters titles chapterNumbers progress n (pre ++ [k]) w
    = (w', Some err).
Proof.
  unfold written, container_path, group.
  revert n w. induction keys as [|k0 keys IH]; intros n w Hrun; [done|].
  simpl in Hrun.
  destruct (decide (length (default [] (chapters !! k0)) = 0)) as [Hz|Hz].
  - destruct (IH _ _ Hrun) as (pre & k & post & cause & -> & -> & Hpre & Hsame).
    exists (k0 :: pre), k, post, cause. split_and!; [done|done| |].
    + intros k' [->|Hk']%elem_of_cons Hne; [|by auto].
      by apply nil_length_inv in Hz.
    + simpl. by rewrite decide_True.
  - match type of Hrun with context [ArchiveCBZ os ?f ?fl ?pr w] =>
      destruct (ArchiveCBZ os f fl pr w) as [w1 [e|]] eqn:Ha end.
    + simplify_eq. exists [], k0, keys, e. split_and!; [done|done| |].
      * intros k' Hk'. by apply elem_of_nil in Hk'.
      * simpl. rewrite decide_False by done. by rewrite Ha.
    + destruct (IH _ _ Hrun) as (pre & k & post & cause & -> & -> & Hpre & Hsame).
      exists (k0 :: pre), k, post, cause. split_and!; [done|done| |].
      * intros k' [->|Hk']%elem_of_cons Hne; [|by auto].
        apply ArchiveCBZ_ok in Ha as (_ & Hfs & _).
        pose proof (archive_chapters_preserves
          (n + length (default [] (chapters !! k0))) (pre ++ k :: post) w1 _ _ Hfs) as Hp.
        by rewrite Hrun in Hp.
      * simpl. rewrite decide_False by done. by rewrite Ha.
Qed.

(** C6, as the code has it.  [ArchiveMultipleChapters] visits the
    groups in the order the runtime gives, skips the empty ones, and
    writes the container of each other one at the path the filename policy
    names in [baseDir].  When it returns no error, every group visited
    that is not empty has its container.  When archiving a group fails,
    it returns that error, wrapped with the key of the group, at once: the
    groups visited before have their containers, and the groups that come
    after are not attempted: the outcome is that of visiting the groups up
    to the failing one alone. *)
Theorem ArchiveMultipleChapters_stops_at_failure order w :
  let res :=
    ArchiveMultipleChapters os baseDir chapters titles chapterNumbers progress order w in
  match res.2 with
  | None => ∀ k, k ∈ order → group k ≠ [] → written k res.1
  | Some err =>
      (err = ErrNoChapters ∧ res.1 = w) ∨
      (∃ cause, err = ErrBaseDir baseDir cause ∧ res.1 = w) ∨
      (∃ pre k post cause,
         order = pre ++ k :: post ∧ err = ErrChapter k cause ∧
         (∀ k', k' ∈ pre → group k' ≠ [] → written k' res.1) ∧
         ArchiveMultipleChapters os baseDir chapters titles chapterNumbers progress
           (pre ++ [k]) w = res)
  end.
Proof.
  intros res. subst res. unfold ArchiveMultipleChapters.
  destruct (decide (size chapters = 0)); simpl; [by left|].
  pose proof (λ w1, MkdirAll_preserves baseDir w w1) as Hp.
  assert (∀ e, (MkdirAll os baseDir w).2 = Some e → (MkdirAll os baseDir w).1 = w) as Hfail.
  { unfold MkdirAll. destruct (fs w !! baseDir) as [[]|]; try done.
    by destruct (mkdir_fault os baseDir). }
  destruct (MkdirAll os baseDir w) as [w1 [e|]]; simpl in *.
  { right; left. exists e. split; [done|]. by eapply Hfail. }
  destruct (archive_chapters _ _ _ _ _ _ _ _ w1) as [w' [err|]] eqn:Hrun; simpl.
  - right; right.
    destruct (archive_chapters_err _ _ _ _ _ Hrun)
      as (pre & k & post & cause & -> & -> & Hpre & Hsame).
    by exists pre, k, post, cause.
  - by eapply archive_chapters_ok.
Qed.

End chapters.

End packer_files.

(* ===================================================================== *)
(** * GetCBZFilename *)

Section filename_policy.
Import packer.

(** ** Strings *)

Lemma append_cons c (s t : string) : String c s +:+ t = String c (s +:+ t).
Proof. reflexivity. Qed.

Lemma append_nil_l (t : string) : "" +:+ t = t.
Proof. reflexivity. Qed.

Lemma append_nil_r (s : string) : s +:+ "" = s.
Proof. induction s as [|c s IH]; [done|]. by rewrite append_cons, IH. Qed.

Lemma append_length (s t : string) :
  String.length (s +:+ t) = String.length s + String.length t.
Proof. induction s as [|c s IH]; [done|]. rewrite append_cons. simpl. by rewrite IH. Qed.

Lemma substring_all (s : string) : String.substring 0 (String.length s) s = s.
Proof. induction s as [|c s IH]; simpl; [done|]. by rewrite IH. Qed.

Lemma substring_append (s t : string) n :
  String.substring (String.length s) n (s +:+ t) = String.substring 0 n t.
Proof. induction s as [|c s IH]; [done|]. rewrite append_cons. simpl. by rewrite IH. Qed.

(** A string that ends in [suffix] has it as a suffix. *)
Lemma HasSuffix_append (s suffix : string) : HasSuffix (s +:+ suffix) suffix = true.
Proof.
  unfold HasSuffix. rewrite append_length.
  replace (String.length s + String.length suffix - String.length suffix)
    with (String.length s) by lia.
  rewrite substring_append, substring_all, String.eqb_refl.
  rewrite andb_true_r. apply Nat.leb_le. lia.
Qed.

Lemma contains_append (s t : string) c :
  contains (s +:+ t) c = contains s c || contains t c.
Proof.
  induction s as [|d s IH]; [done|]. rewrite append_cons. simpl.
  by destruct (decide (c = d)).
Qed.

(** ** Decimal digits *)

Definition is_digit (c : ascii) : bool :=
  let n := Ascii.N_of_ascii c in ((48 <=? n) && (n <=? 57))%N.

Fixpoint all_digits (s : string) : bool :=
  match s with
  | EmptyString => true
  | String c s' => is_digit c && all_digits s'
  end.

Lemma all_digits_no_point s : all_digits s = true → contains s "."%char = false.
Proof.
  induction s as [|c s IH]; simpl; [done|]. intros [Hc Hs]%andb_true_iff.
  destruct (decide ("."%char = c)) as [<-|]; [done|]. auto.
Qed.

Lemma uint_all_digits (d : Decimal.uint) :
  all_digits (DecimalString.NilEmpty.string_of_uint d) = true.
Proof. induction d; simpl; auto. Qed.

Lemma decimal_all_digits n : all_digits (decimal n) = true.
Proof.
  unfold decimal, DecimalString.NilZero.string_of_uint.
  destruct (N.to_uint n) eqn:E; try apply (uint_all_digits (_ _)); done.
Qed.

Lemma decimal_no_point n : contains (decimal n) "."%char = false.
Proof. apply all_digits_no_point, decimal_all_digits. Qed.

(** A number below ten is one digit. *)
Lemma decimal_digit n :
  (n < 10)%N → ∃ d, decimal n = String d "" ∧ is_digit d = true.
Proof.
  intros Hn.
  assert (n ∈ [0; 1; 2; 3; 4; 5; 6; 7; 8; 9]%N) as Hin.
  { assert (∃ k, k < 10 ∧ n = N.of_nat k) as (k & Hk & ->).
    { exists (N.to_nat n). split; [lia|]. by rewrite N2Nat.id. }
    do 10 (destruct k as [|k]; [set_solver|]). lia. }
  repeat (apply elem_of_cons in Hin as [->|Hin]; [by eexists|]).
  by apply elem_of_nil in Hin.
Qed.

(** ** Chapter numbers *)

Variable os : platform.

(** The number is finite and its whole part is less than [2^63]. *)
Definition within_int64 (x : float64) : Prop :=
  match x with
  | Finite _ m e => (numerator m e / denominator e < 2 ^ 63)%N
  | _ => False
  end.

(** The sign and the whole part of a finite number. *)
Definition sign_of (x : float64) : string :=
  match x with
  | Finite true _ _ => "-"
  | _ => ""
  end.

Definition whole_part (x : float64) : N :=
  match x with
  | Finite _ m e => (numerator m e / denominator e)%N
  | _ => 0%N
  end.

Lemma denominator_pos e : (0 < denominator e)%N.
Proof.
  unfold denominator. destruct (0 <=? e)%Z; [lia|].
  apply N.neq_0_lt_0, N.pow_nonzero. lia.
Qed.

Lemma round_half_even_exact num den :
  (0 < den)%N → (num mod den = 0)%N → round_half_even num den = (num / den)%N.
Proof.
  intros Hden Hmod. unfold round_half_even. rewrite Hmod.
  by destruct (N.compare_spec (2 * 0) den); try lia.
Qed.

(** The conversion to [int64] of a number within its range. *)
Lemma int64_within neg m e :
  within_int64 (Finite neg m e) →
  int64 (unrepresentable os) (Finite neg m e) =
    if neg then (- Z.of_N (numerator m e / denominator e))%Z
    else Z.of_N (numerator m e / denominator e).
Proof.
  simpl. intros Hlt. set (t := (numerator m e / denominator e)%N) in *.
  assert (Z.of_N t < 2 ^ 63)%Z as Ht.
  { change (2 ^ 63)%Z with (Z.of_N (2 ^ 63)). lia. }
  destruct neg.
  - rewrite (proj2 (andb_true_iff _ _)); [done|]. split; [apply Z.leb_le|apply Z.ltb_lt]; lia.
  - rewrite (proj2 (andb_true_iff _ _)); [done|]. split; [apply Z.leb_le|apply Z.ltb_lt]; lia.
Qed.

(** A whole number of 53 bits or fewer, shifted left, converts to
    [float64] without rounding. *)
Lemma to_float64_exact (neg : bool) m (k : N) :
  (0 < m < 2 ^ 53)%N → (2 ^ 53 ≤ m * 2 ^ k)%N →
  let t := (m * 2 ^ k)%N in
  let v := if neg then (- Z.of_N t)%Z else Z.of_N t in
  ∃ q j, to_float64 v = Finite neg q (Z.of_N j) ∧ (q * 2 ^ j = t)%N.
Proof.
  intros [Hm0 Hm] Hbig t v. unfold to_float64.
  assert (Z.abs_N v = t) as -> by (subst v; destruct neg; lia).
  assert ((v <? 0)%Z = neg) as ->.
  { subst v. destruct neg; [apply Z.ltb_lt|apply Z.ltb_ge]; lia. }
  rewrite (proj2 (N.ltb_ge _ _)) by done.
  set (j := (N.log2 t - 52)%N). exists (round_half_even t (2 ^ j)), j.
  split; [done|].
  assert (N.log2 t = k + N.log2 m)%N as Hlog by (by apply N.log2_mul_pow2; lia).
  assert (N.log2 m < 53)%N as Hlm by (by apply N.log2_lt_pow2).
  assert (j ≤ k)%N as Hjk by lia.
  assert (t = (m * 2 ^ (k - j)) * 2 ^ j)%N as Ht.
  { subst t. rewrite <- N.mul_assoc, <- N.pow_add_r. f_equal. f_equal. lia. }
  assert (0 < 2 ^ j)%N as Hpos by (apply N.neq_0_lt_0, N.pow_nonzero; lia).
  rewrite round_half_even_exact; [|done|].
  - rewrite Ht at 1. rewrite N.div_mul by lia. by rewrite <- Ht.
  - rewrite Ht. apply N.Div0.mod_mul.
Qed.

(** The test [chapterNumber == float64(int64(chapterNumber))] holds
    exactly of the whole numbers. *)
Lemma test_integral x :
  is_float64 x → within_int64 x →
  float64_eqb x (to_float64 (int64 (unrepresentable os) x)) = true ↔ integral x.
Proof.
  destruct x as [neg m e| |]; [|done..]. intros [Hm He] Hw.
  rewrite (int64_within neg m e Hw). simpl in Hw |- *.
  set (num := numerator m e) in *. set (den := denominator e) in *.
  pose proof (denominator_pos e) as Hden. fold den in Hden.
  set (t := (num / den)%N) in *.
  destruct (decide (t < 2 ^ 53)%N) as [Hsmall|Hbig].
  - (* the whole part has 53 bits or fewer *)
    set (v := if neg then (- Z.of_N t)%Z else Z.of_N t).
    unfold to_float64. assert (Z.abs_N v = t) as -> by (subst v; destruct neg; lia).
    rewrite (proj2 (N.ltb_lt _ _)) by done.
    unfold float64_eqb. change (denominator 0) with 1%N.
    change (numerator t 0) with (t * 1)%N. fold num den.
    rewrite andb_true_iff, N.eqb_eq, orb_true_iff, bool_decide_eq_true, N.eqb_eq.
    rewrite !N.mul_1_r. split.
    + intros [Heq _]. rewrite Heq. apply N.Div0.mod_mul.
    + intros Hint. apply N.Div0.div_exact in Hint. fold t in Hint.
      split; [lia|].
      destruct neg; [|left; subst v; symmetry; apply Z.ltb_ge; lia].
      destruct (decide (t = 0)%N) as [Hz|Hz].
      * right. assert (num = 0)%N as Hn by lia. subst num. unfold numerator in Hn.
        destruct (0 <=? e)%Z; [|done].
        apply N.eq_mul_0 in Hn as [?|Hp]; [done|]. by apply N.pow_nonzero in Hp.
      * left. subst v. symmetry. apply Z.ltb_lt. lia.
  - (* a whole number of more than 53 bits *)
    assert (0 ≤ e)%Z as He0.
    { destruct (decide (0 ≤ e)%Z); [done|]. exfalso. apply Hbig.
      subst t num. unfold numerator. rewrite (proj2 (Z.leb_gt _ _)) by lia.
      eapply N.le_lt_trans; [|done]. apply N.Div0.div_le_upper_bound.
      transitivity (1 * m)%N; [lia|]. apply N.mul_le_mono_r. lia. }
    assert (den = 1%N) as Hd1.
    { subst den. unfold denominator. by rewrite (proj2 (Z.leb_le _ _)). }
    assert (num = m * 2 ^ Z.to_N e)%N as Hnum.
    { subst num. unfold numerator. by rewrite (proj2 (Z.leb_le _ _)). }
    assert (t = num) as Ht by (subst t; rewrite Hd1; apply N.div_1_r).
    split; [intros _; rewrite Hd1; apply N.mod_1_r|intros _].
    assert (0 < m)%N as Hm0.
    { destruct (decide (m = 0)%N); [|lia]. exfalso. apply Hbig. rewrite Ht, Hnum. subst m.
      rewrite N.mul_0_l. done. }
    destruct (to_float64_exact neg m (Z.to_N e)) as (q & j & Hto & Hq); [lia|lia|].
    rewrite Ht, Hnum, Hto. unfold float64_eqb.
    rewrite andb_true_iff, N.eqb_eq, orb_true_iff, bool_decide_eq_true.
    split; [|by left].
    fold num den. rewrite Hd1. unfold denominator, numerator.
    rewrite (proj2 (Z.leb_le 0 (Z.of_N j))) by lia. rewrite N2Z.id. lia.
Qed.

Lemma format_f_whole x :
  integral x → format_f 0 x = sign_of x +:+ decimal (whole_part x).
Proof.
  destruct x as [neg m e| |]; [|done..]. simpl. intros Hint.
  rewrite !N.mul_1_r, N.div_1_r, append_nil_r.
  rewrite round_half_even_exact; [|apply denominator_pos|done].
  by destruct neg.
Qed.

Lemma format_f_one_digit neg m e :
  ∃ n d, format_f 1 (Finite neg m e) =
           sign_of (Finite neg m e) +:+ decimal n +:+ "." +:+ String d "" ∧
         is_digit d = true.
Proof.
  simpl. change (10 ^ N.of_nat 1)%N with 10%N.
  set (q := round_half_even _ _).
  destruct (decimal_digit (q mod 10)) as (d & Hd & Hdig).
  { apply N.mod_lt. lia. }
  exists (q / 10)%N, d. split; [|done]. rewrite Hd. by destruct neg.
Qed.

Lemma sign_no_point x n : contains (sign_of x +:+ decimal n) "."%char = false.
Proof.
  rewrite contains_append, decimal_no_point, orb_false_r.
  by destruct x as [[] ? ?|[]|].
Qed.

(** The [float64] numbers 1, 1.5 and 10.5, as mantissa and exponent. *)
Definition float64_1 : float64 := Finite false (2 ^ 52) (-52).
Definition float64_1_5 : float64 := Finite false (3 * 2 ^ 51) (-52).
Definition float64_10_5 : float64 := Finite false (21 * 2 ^ 48) (-49).

(** The [float64] number [2^64]. *)
Definition float64_2_64 : float64 := Finite false (2 ^ 52) 12.

(** The number is finite. *)
Definition is_finite (x : float64) : Prop :=
  match x with Finite _ _ _ => True | _ => False end.

(** The whole part of a number that is not whole has 53 bits or fewer. *)
Lemma fraction_within x :
  is_float64 x → is_finite x → ¬ integral x → within_int64 x.
Proof.
  destruct x as [neg m e| |]; [|done..]. intros [Hm He] _ Hint. simpl in *.
  destruct (decide (0 ≤ e)%Z) as [H0|H0].
  - destruct Hint. unfold denominator. rewrite (proj2 (Z.leb_le _ _)) by done.
    apply N.mod_1_r.
  - unfold numerator. rewrite (proj2 (Z.leb_gt _ _)) by lia.
    pose proof (denominator_pos e) as Hden.
    eapply N.le_lt_trans; [apply N.Div0.div_le_upper_bound|].
    + transitivity (1 * m)%N; [lia|]. apply N.mul_le_mono_r. lia.
    + eapply N.lt_trans; [done|]. by vm_compute.
Qed.

(** C9, as the code has it.  The name [GetCBZFilename] returns always
    ends in [.cbz], and the chapter number stands in it as [chapterStr]
    makes it.  A whole number whose magnitude is less than [2^63] is
    rendered by its digits, after its sign, with no decimal point; a finite
    number that is not whole is rendered with a decimal point followed by
    exactly one digit.  The two names of the specification are as it
    says. *)
Theorem GetCBZFilename_number_format title x chapterTitle :
  HasSuffix (GetCBZFilename os title x chapterTitle) ".cbz" = true ∧
  GetCBZFilename os title x chapterTitle =
    ((sanitizeFilename title +:+ " - Chapter " +:+ chapterStr os x) +:+
     (if decide (chapterTitle = "") then ""
      else " - " +:+ sanitizeFilename chapterTitle)) +:+ ".cbz" ∧
  (is_float64 x →
   (integral x → within_int64 x →
      chapterStr os x = sign_of x +:+ decimal (whole_part x) ∧
      contains (chapterStr os x) "."%char = false) ∧
   (is_finite x → ¬ integral x →
      ∃ n d, chapterStr os x = sign_of x +:+ decimal n +:+ "." +:+ String d "" ∧
             is_digit d = true ∧
             contains (sign_of x +:+ decimal n) "."%char = false)) ∧
  GetCBZFilename os "One Piece" float64_1 "Romance Dawn"
    = "One Piece - Chapter 1 - Romance Dawn.cbz" ∧
  GetCBZFilename os "X" float64_1_5 "" = "X - Chapter 1.5.cbz".
Proof.
  split_and!.
  - unfold GetCBZFilename. apply HasSuffix_append.
  - unfold GetCBZFilename. destruct (decide (chapterTitle = "")); [|done].
    by rewrite append_nil_r.
  - intros Hx. unfold chapterStr. split.
    + intros Hint Hw. pose proof (test_integral x Hx Hw) as Htest.
      rewrite (proj2 Htest Hint), (format_f_whole x Hint).
      split; [done|]. apply sign_no_point.
    + intros Hfin Hint.
      pose proof (test_integral x Hx (fraction_within x Hx Hfin Hint)) as Htest.
      destruct (float64_eqb _ _); [by destruct Hint; apply Htest|].
      destruct x as [neg m e| |]; [|done..].
      destruct (format_f_one_digit neg m e) as (n & d & Hf & Hd).
      exists n, d. split_and!; [done|done|]. apply sign_no_point.
  - by vm_compute.
  - by vm_compute.
Qed.

(** Whatever [int64] the platform makes of [2^64], it does not convert
    back to [2^64]: the number is rendered with a decimal point on every
    platform. *)
Lemma chapterStr_beyond_int64 :
  (- 2 ^ 63 ≤ unrepresentable os float64_2_64 < 2 ^ 63)%Z →
  chapterStr os float64_2_64 = "18446744073709551616.0".
Proof.
  intros Hn. unfold chapterStr.
  change (int64 (unrepresentable os) float64_2_64) with (unrepresentable os float64_2_64).
  set (n := unrepresentable os float64_2_64) in *.
  assert (float64_eqb float64_2_64 (to_float64 n) = false) as ->; [|by vm_compute].
  unfold to_float64. set (a := Z.abs_N n).
  assert (a ≤ 2 ^ 63)%N as Ha.
  { subst a. change (2 ^ 63)%N with (Z.to_N (2 ^ 63)). lia. }
  destruct (N.ltb_spec a (2 ^ 53)) as [Hsmall|Hbig].
  - unfold float64_eqb, float64_2_64. apply andb_false_iff. left. apply N.eqb_neq.
    change (numerator (2 ^ 52) 12) with (2 ^ 64)%N.
    change (denominator 0) with 1%N. change (denominator 12) with 1%N.
    change (numerator a 0) with (a * 1)%N.
    assert (2 ^ 53 < 2 ^ 64)%N by (by vm_compute). lia.
  - set (k := (N.log2 a - 52)%N).
    assert (0 < a)%N as Hpos by (assert (0 < 2 ^ 53)%N by (by vm_compute); lia).
    assert (N.log2 a ≤ 63)%N as Hlog.
    { apply N.log2_le_mono in Ha. by rewrite N.log2_pow2 in Ha by lia. }
    assert (k ≤ 11)%N as Hk by lia.
    assert (2 ^ k ≤ 2 ^ 11)%N as Hpk by (apply N.pow_le_mono_r; lia).
    assert (0 < 2 ^ k)%N as Hpk0 by (apply N.neq_0_lt_0, N.pow_nonzero; lia).
    assert (round_half_even a (2 ^ k) ≤ a / 2 ^ k + 1)%N as Hq.
    { unfold round_half_even. destruct (_ ?= _)%N; [destruct (N.even _)|..]; lia. }
    pose proof (N.Div0.mul_div_le a (2 ^ k)) as Hdiv.
    unfold float64_eqb, float64_2_64. apply andb_false_iff. left. apply N.eqb_neq.
    change (numerator (2 ^ 52) 12) with (2 ^ 64)%N. change (denominator 12) with 1%N.
    unfold denominator, numerator. rewrite (proj2 (Z.leb_le 0 (Z.of_N k))) by lia.
    rewrite N2Z.id.
    assert (2 ^ 63 + 2 ^ 11 < 2 ^ 64)%N by (by vm_compute).
    nia.
Qed.

End filename_policy.

(* ===================================================================== *)
(** * The packer on concrete inputs *)

Section packer_examples.
Import packer.

(** A platform: paths with [/] and without [.] and [..] elements, the
    conversion of amd64, no I/O fault. *)
Fixpoint before_last_slash (s : string) : option string :=
  match s with
  | EmptyString => None
  | String c s' =>
      match before_last_slash s' with
      | Some d => Some (String c d)
      | None => if decide (c = "/"%char) then Some EmptyString else None
      end
  end.

Definition simple_Dir (path : string) : string :=
  match before_last_slash path with
  | None => "."
  | Some EmptyString => "/"
  | Some d => d
  end.

Definition posix : platform :=
  mkPlatform simple_Dir (λ dir name, dir +:+ "/" +:+ name) (λ _, (- 2 ^ 63)%Z)
             (λ _, None) (λ _, None) (λ _ _, None) (λ _ _, None).

(** Three page contents. *)
Definition data_A : bytes := [x41].
Definition data_B : bytes := [x42].
Definition data_C : bytes := [x43].

(** The files of the specification: pages 1, 3, 2, in that order. *)
Definition out_of_order : list downloader.File :=
  [downloader.mkFile data_A 1; downloader.mkFile data_B 3; downloader.mkFile data_C 2].

(** An empty file system; one with a file at [existing.cbz]; one with a
    file at [out]; one with the directory [out] and a file where the
    container of chapter 1 of [T] belongs. *)
Definition empty_world : world := mkWorld ∅ [].

Definition world_existing : world := mkWorld {[ "existing.cbz" := Regular data_A ]} [].

Definition world_out : world := mkWorld {[ "out" := Regular data_A ]} [].

Definition world_taken : world :=
  mkWorld {[ "out" := Directory; "out/T - Chapter 1.cbz" := Regular data_A ]} [].

(** Two groups, chapters 1 and 2 of [T]. *)
Definition two_chapters : gmap string (list downloader.File) :=
  {[ "a" := [downloader.mkFile data_A 1]; "b" := [downloader.mkFile data_B 1] ]}.
Definition two_titles : gmap string string := {[ "a" := "T"; "b" := "T" ]}.
Definition two_numbers : gmap string float64 :=
  {[ "a" := float64_1; "b" := Finite false 2 0 ]}.

(** C5 as the code has it, in an empty file system. *)
Lemma ArchiveCBZ_out_of_order_witness :
  can_archive posix empty_world (destination "test.cbz") ∧
  ∃ w',
    ArchiveCBZ posix "test.cbz"
      [downloader.mkFile data_A 1; downloader.mkFile data_B 3; downloader.mkFile data_C 2]
      None empty_world = (w', None) ∧
    fs w' !! destination "test.cbz" =
      Some (Container [mkEntry "001.jpg" data_A; mkEntry "003.jpg" data_B;
                       mkEntry "002.jpg" data_C]).
Proof.
  assert (can_archive posix empty_world (destination "test.cbz")) as Hcan.
  { split_and!; try done. by left. }
  split; [done|].
  apply (ArchiveCBZ_out_of_order posix "test.cbz" data_A data_B data_C None empty_world Hcan).
Defined.

(** C5 fails as stated: the listing is in the order of the files, not
    in the order of the pages. *)
Lemma ArchiveCBZ_listing_in_input_order :
  ∃ w' es,
    ArchiveCBZ posix "test.cbz" out_of_order None empty_world = (w', None) ∧
    fs w' !! "test.cbz" = Some (Container es) ∧
    e_name <$> es = ["001.jpg"; "003.jpg"; "002.jpg"] ∧
    e_data <$> es = [data_A; data_B; data_C] ∧
    es ≠ [mkEntry "001.jpg" data_A; mkEntry "002.jpg" data_C; mkEntry "003.jpg" data_B].
Proof.
  eexists _, _. split; [by vm_compute|]. split; [by vm_compute|].
  split_and!; done.
Qed.

(** C7 as the code has it, with a file at the destination. *)
Lemma ArchiveCBZ_destination_exists_witness :
  out_of_order ≠ [] ∧
  fs world_existing !! destination "existing.cbz" = Some (Regular data_A) ∧
  directory_present posix world_existing (destination "existing.cbz") ∧
  ArchiveCBZ posix "existing.cbz" out_of_order None world_existing
    = (world_existing, Some (ErrExists "existing.cbz")).
Proof.
  assert (out_of_order ≠ []) as Hne by done.
  assert (fs world_existing !! destination "existing.cbz" = Some (Regular data_A))
    as Hex by (by vm_compute).
  assert (directory_present posix world_existing (destination "existing.cbz"))
    as Hdir by (by left).
  split; [done|]. split; [done|]. split; [done|].
  apply (ArchiveCBZ_destination_exists posix "existing.cbz" out_of_order None
           world_existing (Regular data_A) Hne Hex Hdir).
Defined.

(** C7 fails as stated: [ArchiveCBZ] is invoked with the path [out],
    where a file is, and returns no error; it has written [out.cbz]. *)
Lemma ArchiveCBZ_existing_path_no_error :
  fs world_out !! "out" = Some (Regular data_A) ∧
  ∃ w', ArchiveCBZ posix "out" [downloader.mkFile data_B 1] None world_out = (w', None) ∧
        fs w' !! "out" = Some (Regular data_A) ∧
        fs w' !! "out.cbz" = Some (Container [mkEntry "001.jpg" data_B]).
Proof.
  split; [by vm_compute|].
  eexists. split; [by vm_compute|]. split; by vm_compute.
Qed.

(** C6 fails as stated: the container of group [a] cannot be written,
    [ArchiveMultipleChapters] returns its error and group [b], which
    comes after it, gets no container, though it gets one when it comes
    first. *)
Lemma ArchiveMultipleChapters_does_not_continue :
  (∃ w', ArchiveMultipleChapters posix "out" two_chapters two_titles two_numbers None
           ["a"; "b"] world_taken
         = (w', Some (ErrChapter "a" (ErrExists "out/T - Chapter 1.cbz"))) ∧
         fs w' !! "out/T - Chapter 2.cbz" = None) ∧
  (∃ w', ArchiveMultipleChapters posix "out" two_chapters two_titles two_numbers None
           ["b"; "a"] world_taken
         = (w', Some (ErrChapter "a" (ErrExists "out/T - Chapter 1.cbz"))) ∧
         fs w' !! "out/T - Chapter 2.cbz" = Some (Container [mkEntry "001.jpg" data_B])).
Proof.
  split; eexists; (split; [by vm_compute|by vm_compute]).
Qed.

(** C9 as the code has it, at the chapter number 10.5. *)
Lemma GetCBZFilename_number_format_witness :
  (is_float64 float64_10_5 ∧ is_finite float64_10_5 ∧ ¬ integral float64_10_5) ∧
  (∃ n d, chapterStr posix float64_10_5
            = sign_of float64_10_5 +:+ decimal n +:+ "." +:+ String d "" ∧
          is_digit d = true ∧
          contains (sign_of float64_10_5 +:+ decimal n) "."%char = false) ∧
  GetCBZFilename posix "Test Manga" float64_10_5 "" = "Test Manga - Chapter 10.5.cbz".
Proof.
  assert (is_float64 float64_10_5) as Hx by (by vm_compute).
  assert (is_finite float64_10_5) as Hf by done.
  assert (¬ integral float64_10_5) as Hn by (by vm_compute).
  split; [done|]. split; [|by vm_compute].
  destruct (GetCBZFilename_number_format posix "" float64_10_5 "") as (_ & _ & H & _).
  by apply H.
Defined.

(** C9 fails as stated: [2^64] is a whole number; no [int64] converts
    back to it, and it is rendered with a decimal point. *)
Lemma GetCBZFilename_whole_number_with_point :
  is_float64 float64_2_64 ∧ integral float64_2_64 ∧
  chapterStr posix float64_2_64 = "18446744073709551616.0" ∧
  GetCBZFilename posix "X" float64_2_64 "" = "X - Chapter 18446744073709551616.0.cbz".
Proof. split_and!; by vm_compute. Qed.

End packer_examples.

(* ===================================================================== *)
(** * FetchChapter: what a caller can rely on *)

Section FetchChapter_guarantees.
Import downloader.

Variable http_Get : string → response.
Variable pages : list grabber.Page.

Local Abbreviation N := (length pages).
Local Abbreviation step := (downloader.step http_Get pages).
Local Abbreviation fetch := (downloader.fetch http_Get).
Local Abbreviation reachable := (downloader.reachable http_Get pages).
Local Abbreviation got := (fetched http_Get pages).

(** ** The two shapes of the result *)

Lemma elem_of_fetched f :
  f ∈ got ↔ ∃ p, p ∈ pages ∧ fetch p = inl f.
Proof.
  unfold fetched. rewrite list_elem_of_omap. split.
  - intros (p & Hp & Hf). exists p. split; [done|].
    destruct (fetch p); by simplify_eq.
  - intros (p & Hp & Hf). exists p. split; [done|]. by rewrite Hf.
Qed.

(** X1.  Whatever the schedule and whichever fetches fail,
    [FetchChapter] returns one of two things.  Either a list and no
    error: then the list holds exactly the files of the pages whose fetch
    succeeded, each once, in ascending order of page number (it is the
    stable sort of the files in the order they were received).  Or no list
    and an error: then the error is ["page n: cause"] for a page of the
    chapter, [n] being its number and [cause] the error of its fetch. *)
Theorem FetchChapter_result_shape s fs err :
  reachable s → returned fs err s →
  (∃ l, fs = Some l ∧ err = None ∧
        l = sortStable (files s) ∧ l ≡ₚ got ∧
        (∀ f, f ∈ l ↔ ∃ p, p ∈ pages ∧ fetch p = inl f) ∧
        Sorted Z.le (Page <$> l) ∧ length l ≤ N) ∨
  (∃ i p cause, fs = None ∧ err = Some (PageError (grabber.Number p) cause) ∧
                pages !! i = Some p ∧ fetch p = inr cause).
Proof.
  intros Hs Hr. apply Inv_reachable in Hs.
  pose proof (returned_result _ _ s fs err Hs Hr) as Hres.
  destruct (returned_files _ _ s Hs ltac:(by exists fs, err)) as [Hf _].
  destruct (downloadErr s) as [e|] eqn:Ee.
  - right. destruct Hres as [-> ->].
    destruct (inv_err _ _ _ Hs e) as (i & p & e0 & Hp & He0 & ->); [by right|].
    by exists i, p, e0.
  - left. destruct Hres as [-> ->]. exists (sortStable (files s)).
    assert (sortStable (files s) ≡ₚ got) as Hperm by (by rewrite sortStable_perm).
    split_and!; try done.
    + intros f. by rewrite Hperm, elem_of_fetched.
    + eapply Sorted_fmap; [|apply sortStable_sorted]. done.
    + rewrite Hperm. apply omap_length_le.
Qed.

(** ** No goroutine is left behind *)

(** X2.  When [FetchChapter] has returned, every goroutine it started
    has ended: each page goroutine has run to its end with the result of
    its fetch, the wait group is at zero, no slot of [guard] is held and
    [fileChan] is empty; for a chapter with pages the closing goroutine has
    closed [done] and [fileChan] and ended.  No goroutine can take a
    further step, so nothing runs on after the return. *)
Theorem FetchChapter_no_goroutine_left s :
  reachable s → has_returned s →
  workers s = (λ p, WDone (fetch p)) <$> pages ∧
  wg s = 0 ∧ guard s = 0 ∧ fileChan s = [] ∧
  (pages ≠ [] → closer s = CExit ∧ done s = true ∧ fileChanClosed s = true) ∧
  (∀ a, step a s = None).
Proof.
  intros Hs Hret. apply Inv_reachable in Hs.
  pose proof (returned_workers _ _ s Hs Hret) as Hws.
  destruct (returned_files _ _ s Hs Hret) as [_ Hfc].
  pose proof (inv_wg _ _ _ Hs) as Hwg. red in Hwg.
  destruct (inv_guard _ _ _ Hs) as [Hg _]. unfold slots_held in Hg.
  pose proof (inv_main _ _ _ Hs) as Hm. pose proof (inv_closer _ _ _ Hs) as Hc.
  red in Hm, Hc.
  assert (sum_list_with live (workers s) = 0 ∧ sum_list_with holding (workers s) = 0)
    as [Hl Hh].
  { rewrite Hws. clear. induction pages; csimpl; auto. }
  destruct Hret as (fs & err & Hr). red in Hr. rewrite Hr in Hm, Hg. simpl in Hg.
  split_and!; [done|lia|lia|done| |].
  - intros Hne. destruct Hm as [[Ec _]|(_ & Hcl & _)].
    + rewrite Ec, Hr in Hc. destruct Hc as (_ & _ & [[]|[HN _]]).
      by apply nil_length_inv in HN.
    + destruct (closed_wg _ _ s Hs Hcl) as [_ Ec]. rewrite Ec in Hc.
      by destruct Hc as (_ & ? & _).
  - intros a. apply returned_final; [done|]. by exists fs, err.
Qed.

(** ** A page goroutine never waits *)

(** X3.  Once its fetch has returned, a page goroutine never waits: as
    long as it has not ended it can take its next step, whatever the other
    goroutines do.  Its send of a file finds room in [fileChan], which
    never holds more files than the chapter has pages, its send of an
    error has a [default], and a slot of [guard] and a count of the wait
    group are there for it to give back. *)
Theorem FetchChapter_page_goroutine_never_blocks s i w :
  reachable s → workers s !! i = Some w → w ≠ WFetch → (∀ r, w ≠ WDone r) →
  (∃ s', step (Worker i) s = Some s') ∧
  (∀ f, w = WSendFile f → length (fileChan s) < N) ∧
  length (fileChan s) ≤ N.
Proof.
  intros Hs Hw _ Hnd. apply Inv_reachable in Hs.
  assert (live w = 1) as Hl by (destruct w; try done; by destruct (Hnd r)).
  destruct (worker_progress _ _ s i w Hs Hw Hl) as (s' & Hstep & _).
  pose proof (inv_files _ _ _ Hs) as Hf. red in Hf.
  destruct (inv_len _ _ _ Hs) as [Hlen Hb].
  assert (length (workers s) ≤ N) as Hws.
  { rewrite Hlen. destruct (main s); simpl in *; lia. }
  pose proof (omap_length_le sent (workers s)) as Hle.
  rewrite <- Hf, length_app in Hle.
  split_and!; [by exists s'| |lia].
  intros f ->. pose proof (omap_length_lt sent _ _ _ Hw eq_refl) as Hlt.
  rewrite <- Hf, length_app in Hlt. lia.
Qed.

(** ** How many failures the callback is told of *)

(** An invocation of the callback that reports a failure. *)
Definition reports_failure (c : call) : nat :=
  match c_err c with Some _ => 1 | None => 0 end.

(** The number of failures reported so far. *)
Definition failures_reported (s : state) : nat :=
  sum_list_with reports_failure (calls s).

(** The goroutine has sent its error and is about to report it. *)
Definition announcing (w : wpc) : nat :=
  match w with WCallErr _ => 1 | _ => 0 end.

(** An error is there. *)
Definition pending (e : option error) : nat :=
  match e with Some _ => 1 | None => 0 end.

(** The failures reported or about to be are the errors [errChan] has
    accepted: the one in its buffer and the one the main goroutine took
    from it, which it does once. *)
Definition I_failures (s : state) : Prop :=
  failures_reported s + sum_list_with announcing (workers s)
  = pending (errChan s) + pending (downloadErr s) ∧
  (is_Some (downloadErr s) → main s = MDrain ∨ main s = MCheck ∨ has_returned s).

Ltac step_cases H :=
  unfold downloader.step, step_main, step_select, step_worker, step_closer in H;
  repeat match type of H with
    | context [match ?x with _ => _ end] => destruct x eqn:?; try discriminate H
    end;
  injection H as <-.

Ltac sset :=
  cbn [main workers closer wg guard errChan done fileChan fileChanClosed files
       downloadErr calls set_main set_workers set_closer set_wg set_guard
       set_errChan set_done set_fileChan set_fileChanClosed set_files
       set_downloadErr set_calls] in *.

Lemma step_I_failures s a s' : I_failures s → step a s = Some s' → I_failures s'.
Proof.
  intros [Hc Hm] Hs. unfold I_failures, failures_reported, has_returned, returned in *.
  destruct (downloadErr s) as [d|] eqn:Ed;
    [specialize (Hm ltac:(by eexists))|clear Hm];
    step_cases Hs; sset;
    rewrite ?sum_list_with_app; simpl;
    try match goal with
        | E : workers _ !! ?i = Some ?w |- context [<[?i:=?w']> _] =>
            pose proof (sum_list_with_insert announcing _ i w w' E); simpl in *
        end;
    repeat match goal with
           | E : errChan _ = _ |- _ => rewrite E in *
           | E : downloadErr _ = _ |- _ => rewrite E in *
           | E : main _ = _ |- _ => rewrite E in *
           end; simpl in *;
    try (destruct Hm as [?|[?|(? & ? & ?)]]; try discriminate);
    try discriminate;
    (split; [lia|]);
    try (by intros [? ?]); intros _; by eauto 6.
Qed.

Lemma I_failures_reachable s : reachable s → I_failures s.
Proof.
  intros Hs. eapply (rtc_ind_r (λ s, I_failures s)); [| |exact Hs].
  - split; [done|]. by intros [? ?].
  - intros s1 s2 _ [a Ha] IH. by eapply step_I_failures.
Qed.

(** X4.  However many fetches fail, the callback is told of at most
    two failures: a goroutine reports its failure only when [errChan] took
    its error, [errChan] has room for one, and the main goroutine takes one
    from it at most.  When [FetchChapter] has returned, the failures
    reported are the error it returned, if it returned one, and the error
    left in [errChan], if one is left there. *)
Theorem FetchChapter_failures_reported s :
  reachable s →
  failures_reported s ≤ 2 ∧
  (∀ fs err, returned fs err s →
     failures_reported s = pending err + pending (errChan s)).
Proof.
  intros Hs. destruct (I_failures_reachable s Hs) as [Hc _].
  split.
  - destruct (errChan s), (downloadErr s); simpl in Hc; lia.
  - intros fs err Hr. apply Inv_reachable in Hs.
    pose proof (returned_workers _ _ s Hs ltac:(by exists fs, err)) as Hws.
    assert (sum_list_with announcing (workers s) = 0) as Hz.
    { rewrite Hws. clear. induction pages; csimpl; auto. }
    pose proof (returned_result _ _ s fs err Hs Hr) as Hres.
    destruct (downloadErr s); destruct Hres as [-> ->]; simpl in *; lia.
Qed.

End FetchChapter_guarantees.

(* ===================================================================== *)
(** * The guarantees of FetchChapter on concrete runs *)

Section FetchChapter_guarantees_examples.
Import downloader.

(** No page of three is served.  The error of page 1 is taken by the
    select, the error of page 2 goes into [errChan] after it, the error of
    page 3 finds [errChan] full; the goroutines of pages 1 and 2 invoke the
    callback. *)
Definition two_failures : list action :=
  replicate 8 Main ++ [Worker 0; Worker 0; Select RecvErr; Worker 1; Worker 1;
                       Worker 2; Worker 2; Worker 0; Worker 1].

Definition state_two_failures : state :=
  Eval vm_compute in default init (run serve_none three_pages two_failures init).

(** X1, on the run [error_taken]: the error of page 2 is returned, and
    no list. *)
Lemma FetchChapter_result_shape_witness :
  reachable serve_all_but_page2 two_pages state_error_taken ∧
  returned None (Some (PageError 2 (HttpError "404"%string))) state_error_taken ∧
  ∃ i p cause,
    Some (PageError 2 (HttpError "404"%string)) = Some (PageError (grabber.Number p) cause) ∧
    two_pages !! i = Some p ∧ fetch serve_all_but_page2 p = inr cause.
Proof.
  assert (reachable serve_all_but_page2 two_pages state_error_taken) as Hreach.
  { apply (run_reachable _ _ error_taken). vm_compute. reflexivity. }
  assert (returned None (Some (PageError 2 (HttpError "404"%string))) state_error_taken)
    as Hret by reflexivity.
  split; [done|]. split; [done|].
  destruct (FetchChapter_result_shape serve_all_but_page2 two_pages state_error_taken
              None (Some (PageError 2 (HttpError "404"%string))) Hreach Hret)
    as [(l & Hl & _)|(i & p & cause & _ & He & Hp & Hf)]; [discriminate Hl|].
  by exists i, p, cause.
Defined.

(** X2, on the run [error_taken]: after the return with an error both
    page goroutines and the closing goroutine have ended. *)
Lemma FetchChapter_no_goroutine_left_witness :
  reachable serve_all_but_page2 two_pages state_error_taken ∧
  has_returned state_error_taken ∧
  workers state_error_taken =
    [WDone (inl (mkFile [x41] 1)); WDone (inr (HttpError "404"%string))] ∧
  closer state_error_taken = CExit ∧
  ∀ a, step serve_all_but_page2 two_pages a state_error_taken = None.
Proof.
  assert (reachable serve_all_but_page2 two_pages state_error_taken) as Hreach.
  { apply (run_reachable _ _ error_taken). vm_compute. reflexivity. }
  assert (has_returned state_error_taken) as Hret.
  { exists None, (Some (PageError 2 (HttpError "404"%string))). reflexivity. }
  split; [done|]. split; [done|].
  destruct (FetchChapter_no_goroutine_left serve_all_but_page2 two_pages
              state_error_taken Hreach Hret) as (Hws & _ & _ & _ & Hcl & Hfin).
  split; [exact Hws|]. split; [|exact Hfin]. by apply Hcl.
Defined.

(** X3, in the state of [both_calling]: the goroutine of page 1, inside
    the callback, can go on. *)
Lemma FetchChapter_page_goroutine_never_blocks_witness :
  reachable serve_all two_pages state_both_calling ∧
  workers state_both_calling !! 0 = Some (WInCallback (inl (mkFile [x41] 1))) ∧
  WInCallback (inl (mkFile [x41] 1)) ≠ WFetch ∧
  (∃ s', step serve_all two_pages (Worker 0) state_both_calling = Some s') ∧
  length (fileChan state_both_calling) ≤ length two_pages.
Proof.
  assert (reachable serve_all two_pages state_both_calling) as Hreach.
  { apply (run_reachable _ _ both_calling). vm_compute. reflexivity. }
  assert (workers state_both_calling !! 0 = Some (WInCallback (inl (mkFile [x41] 1))))
    as Hw by reflexivity.
  split; [done|]. split; [done|]. split; [discriminate|].
  destruct (FetchChapter_page_goroutine_never_blocks serve_all two_pages
              state_both_calling 0 _ Hreach Hw ltac:(discriminate) ltac:(discriminate))
    as (Hstep & _ & Hlen).
  by split.
Defined.

(** X4, on the run [two_failures]: three pages fail and the callback is
    told of two of the failures. *)
Lemma FetchChapter_failures_reported_witness :
  reachable serve_none three_pages state_two_failures ∧
  failures_reported state_two_failures = 2 ∧
  failures_reported state_two_failures ≤ 2.
Proof.
  assert (reachable serve_none three_pages state_two_failures) as Hreach.
  { apply (run_reachable _ _ two_failures). vm_compute. reflexivity. }
  split; [done|]. split; [reflexivity|].
  apply (FetchChapter_failures_reported serve_none three_pages state_two_failures Hreach).
Defined.

End FetchChapter_guarantees_examples.

(* ===================================================================== *)
(** * File names: sanitizeFilename, the destination, the entry names *)

Section filename_safety.
Import packer.

(** ** sanitizeFilename *)

(** A byte as [sanitizeFilename] leaves it: an underscore for one of
    [invalidChars], itself otherwise. *)
Definition clean (c : ascii) : ascii :=
  if bool_decide (c ∈ invalidChars) then "_"%char else c.

(** The name with every byte made clean. *)
Fixpoint replace_invalid (s : string) : string :=
  match s with
  | EmptyString => EmptyString
  | String c s' => String (clean c) (replace_invalid s')
  end.

(** The last byte of a string. *)
Fixpoint last_byte (s : string) : option ascii :=
  match s with
  | EmptyString => None
  | String c EmptyString => Some c
  | String _ s' => last_byte s'
  end.

(** [t] begins [s]. *)
Definition begins (t s : string) : Prop := ∃ rest, s = t +:+ rest.

Lemma begins_refl s : begins s s.
Proof. exists ""%string. by rewrite append_nil_r. Qed.

Lemma begins_trans s t u : begins s t → begins t u → begins s u.
Proof.
  intros [r1 ->] [r2 ->]. exists (r1 +:+ r2).
  induction s as [|c s IH]; [done|]. rewrite !append_cons. by rewrite IH.
Qed.

Lemma begins_cons c s t : begins s t → begins (String c s) (String c t).
Proof. intros [r ->]. by exists r. Qed.

Lemma begins_nil s : begins "" s.
Proof. by exists s. Qed.

Lemma begins_length s t : begins s t → String.length s ≤ String.length t.
Proof. intros [r ->]. rewrite append_length. lia. Qed.

Lemma begins_contains s t c : begins s t → contains t c = false → contains s c = false.
Proof.
  intros [r ->]. rewrite contains_append. by intros [? ?]%orb_false_iff.
Qed.

(** The loop over [invalidChars] works byte by byte. *)
Lemma foldl_ReplaceAll_cons (l : list ascii) c s :
  foldl (λ result char, ReplaceAll result char "_"%char) (String c s) l
  = String (foldl (λ r char, if decide (r = char) then "_"%char else r) c l)
           (foldl (λ result char, ReplaceAll result char "_"%char) s l).
Proof. revert c s. induction l as [|d l IH]; intros c s; simpl; [done|]. by rewrite IH. Qed.

Lemma foldl_ReplaceAll_nil (l : list ascii) :
  foldl (λ result char, ReplaceAll result char "_"%char) ""%string l = ""%string.
Proof. induction l as [|d l IH]; simpl; [done|]. by rewrite IH. Qed.

Lemma clean_spec c :
  foldl (λ r char, if decide (r = char) then "_"%char else r) c invalidChars = clean c.
Proof. destruct c as [[] [] [] [] [] [] [] []]; by vm_compute. Qed.

Lemma replace_loop s :
  foldl (λ result char, ReplaceAll result char "_"%char) s invalidChars = replace_invalid s.
Proof.
  induction s as [|c s IH]; [apply foldl_ReplaceAll_nil|].
  rewrite foldl_ReplaceAll_cons, IH, clean_spec. done.
Qed.

Lemma clean_valid c d : d ∈ invalidChars → clean c ≠ d.
Proof.
  intros Hd. unfold clean. case_bool_decide as Hc.
  - intros <-. unfold invalidChars in Hd.
    repeat (apply elem_of_cons in Hd as [Hd|Hd]; [discriminate|]).
    by apply elem_of_nil in Hd.
  - by intros ->.
Qed.

Lemma replace_invalid_contains s d : d ∈ invalidChars → contains (replace_invalid s) d = false.
Proof.
  intros Hd. induction s as [|c s IH]; simpl; [done|].
  rewrite decide_False; [done|]. intros ->. by eapply clean_valid.
Qed.

Lemma replace_invalid_length s : String.length (replace_invalid s) = String.length s.
Proof. induction s as [|c s IH]; simpl; [done|]. by rewrite IH. Qed.

Lemma replace_invalid_id s :
  (∀ d, d ∈ invalidChars → contains s d = false) → replace_invalid s = s.
Proof.
  induction s as [|c s IH]; simpl; intros H; [done|].
  rewrite IH.
  - unfold clean. case_bool_decide as Hc; [|done].
    specialize (H c Hc). by rewrite decide_True in H.
  - intros d Hd. specialize (H d Hd). by destruct (decide (d = c)).
Qed.

Lemma TrimRight_begins s cutset : begins (TrimRight s cutset) s.
Proof.
  induction s as [|c s IH]; simpl; [apply begins_refl|].
  destruct (TrimRight s cutset) eqn:E.
  - destruct (contains cutset c); [apply begins_nil|].
    apply begins_cons, begins_nil.
  - by apply begins_cons.
Qed.

Lemma TrimRight_id s cutset :
  (∀ c, last_byte s = Some c → contains cutset c = false) → TrimRight s cutset = s.
Proof.
  induction s as [|c s IH]; simpl; [done|]. intros H.
  destruct s as [|c' s'].
  - simpl. by rewrite (H c eq_refl).
  - rewrite IH by done. done.
Qed.

Lemma substring_begins n s : begins (String.substring 0 n s) s.
Proof.
  revert s. induction n as [|n IH]; intros [|c s]; simpl;
    try apply begins_nil. apply begins_cons, IH.
Qed.

Lemma substring_length n s : String.length (String.substring 0 n s) ≤ n.
Proof.
  revert s. induction n as [|n IH]; intros [|c s]; simpl; try lia.
  specialize (IH s). lia.
Qed.

Lemma sanitizeFilename_begins filename :
  begins (sanitizeFilename filename) (replace_invalid filename).
Proof.
  unfold sanitizeFilename. rewrite replace_loop.
  case_decide.
  - eapply begins_trans; [apply substring_begins|apply TrimRight_begins].
  - apply TrimRight_begins.
Qed.

(** X5.  The name [sanitizeFilename] returns holds none of the
    nine bytes of [invalidChars], is at most 200 bytes long and no longer than the
    name it was given; it begins the given name with every such byte
    replaced by an underscore: but for those replacements, bytes are only
    dropped from the end. *)
Theorem sanitizeFilename_safe filename :
  (∀ c, c ∈ invalidChars → contains (sanitizeFilename filename) c = false) ∧
  String.length (sanitizeFilename filename) ≤ 200 ∧
  String.length (sanitizeFilename filename) ≤ String.length filename ∧
  begins (sanitizeFilename filename) (replace_invalid filename).
Proof.
  pose proof (sanitizeFilename_begins filename) as Hb.
  split_and!; [| | |done].
  - intros c Hc. eapply begins_contains; [done|]. by apply replace_invalid_contains.
  - unfold sanitizeFilename. case_decide; [apply substring_length|lia].
  - apply begins_length in Hb. by rewrite replace_invalid_length in Hb.
Qed.

(** X6.  A name that holds none of the nine bytes of [invalidChars], does
    not end in a space or a dot and is at most 200 bytes long is returned
    as it is. *)
Theorem sanitizeFilename_unchanged filename :
  (∀ c, c ∈ invalidChars → contains filename c = false) →
  (∀ c, last_byte filename = Some c → c ≠ " "%char ∧ c ≠ "."%char) →
  String.length filename ≤ 200 →
  sanitizeFilename filename = filename.
Proof.
  intros Hvalid Hlast Hlen. unfold sanitizeFilename.
  rewrite replace_loop, replace_invalid_id by done.
  rewrite TrimRight_id.
  - by rewrite decide_False by lia.
  - intros c Hc. destruct (Hlast c Hc) as [H1 H2]. simpl.
    rewrite decide_False by done. by rewrite decide_False by done.
Qed.

(** The names [sanitizeFilename] returns hold no invalid byte. *)
Definition valid (s : string) : Prop :=
  ∀ c, c ∈ invalidChars → contains s c = false.

Lemma sanitizeFilename_valid filename : valid (sanitizeFilename filename).
Proof.
  intros c Hc. eapply begins_contains; [apply sanitizeFilename_begins|].
  by apply replace_invalid_contains.
Qed.

Lemma valid_append s t : valid s → valid t → valid (s +:+ t).
Proof. intros Hs Ht c Hc. by rewrite contains_append, Hs, Ht. Qed.

Ltac valid_literal :=
  let c := fresh "c" in let Hc := fresh "Hc" in
  intros c Hc; unfold invalidChars in Hc;
  repeat (apply elem_of_cons in Hc as [->|Hc]; [by vm_compute|]);
  by apply elem_of_nil in Hc.

Lemma valid_digits s : all_digits s = true → valid s.
Proof.
  intros Hs c Hc. induction s as [|d s IH]; simpl in *; [done|].
  apply andb_true_iff in Hs as [Hd Hs].
  rewrite decide_False; [by apply IH|]. intros ->.
  unfold invalidChars in Hc.
  repeat (apply elem_of_cons in Hc as [->|Hc]; [discriminate|]).
  by apply elem_of_nil in Hc.
Qed.

(** ** Zeros in front *)

Definition zeros (k : nat) : string := String.concat "" (replicate k "0"%string).

Lemma zeros_S k : zeros (S k) = String "0" (zeros k).
Proof. unfold zeros. by destruct k. Qed.

Lemma all_digits_append s t : all_digits (s +:+ t) = all_digits s && all_digits t.
Proof.
  induction s as [|c s IH]; [done|]. rewrite append_cons. simpl.
  by rewrite IH, andb_assoc.
Qed.

Lemma zeros_digits k : all_digits (zeros k) = true.
Proof. induction k as [|k IH]; [done|]. by rewrite zeros_S. Qed.

Lemma pad0_digits width s : all_digits s = true → all_digits (pad0 width s) = true.
Proof.
  intros Hs. unfold pad0. fold (zeros (width - String.length s)).
  by rewrite all_digits_append, zeros_digits, Hs.
Qed.

Lemma format_f_valid prec x : valid (format_f prec x).
Proof.
  destruct x as [neg m e|[]|]; simpl; [|valid_literal..].
  apply valid_append; [|apply valid_append].
  - destruct neg; valid_literal.
  - apply valid_digits, decimal_all_digits.
  - destruct prec; [valid_literal|].
    apply valid_append; [valid_literal|].
    apply valid_digits, pad0_digits, decimal_all_digits.
Qed.

Lemma ToLower_append s t : ToLower (s +:+ t) = ToLower s +:+ ToLower t.
Proof. induction s as [|c s IH]; [done|]. rewrite !append_cons. simpl. by rewrite IH. Qed.

(** ** Reading a page number back from its name *)

Definition number_of (s : string) : option N :=
  N.of_uint <$> DecimalString.NilEmpty.uint_of_string s.

Lemma number_of_decimal n : number_of (decimal n) = Some n.
Proof.
  unfold number_of, decimal, DecimalString.NilZero.string_of_uint.
  pose proof (DecimalN.Unsigned.of_to n) as Hn.
  destruct (N.to_uint n) eqn:E;
    try (rewrite DecimalString.NilEmpty.usu; exact (f_equal Some Hn)).
  exact (f_equal Some Hn).
Qed.

Lemma number_of_zero s n : number_of s = Some n → number_of (String "0" s) = Some n.
Proof.
  unfold number_of. simpl.
  destruct (DecimalString.NilEmpty.uint_of_string s) as [d|]; [|done].
  simpl. done.
Qed.

Lemma number_of_pad0 width n : number_of (pad0 width (decimal n)) = Some n.
Proof.
  unfold pad0. fold (zeros (width - String.length (decimal n))).
  induction (width - String.length (decimal n)) as [|k IH].
  - apply number_of_decimal.
  - rewrite zeros_S, append_cons. by apply number_of_zero.
Qed.

Lemma append_inj_r (s t u : string) : s +:+ u = t +:+ u → s = t.
Proof.
  revert t. induction s as [|c s IH]; intros [|d t] H.
  - done.
  - apply (f_equal String.length) in H.
    rewrite append_cons, append_nil_l in H. simpl in H. rewrite append_length in H. lia.
  - apply (f_equal String.length) in H.
    rewrite append_cons, append_nil_l in H. simpl in H. rewrite append_length in H. lia.
  - rewrite !append_cons in H. injection H as -> H. by rewrite (IH t H).
Qed.

Lemma entry_name_inj p q :
  (0 ≤ p)%Z → (0 ≤ q)%Z → entry_name p = entry_name q → p = q.
Proof.
  intros Hp Hq H. unfold entry_name in H. apply append_inj_r in H.
  pose proof (number_of_pad0 3 (Z.to_N p)) as H1. rewrite H in H1.
  rewrite number_of_pad0 in H1. injection H1 as H1. lia.
Qed.

(** X7.  The name of an entry is made of the page number alone, and the
    number can be read back from it: the name is decimal digits that
    denote the number, followed by [.jpg], and it is at least seven bytes
    long.  So files with different page numbers get different names, and
    files with the same page number the same name. *)
Theorem entry_name_distinct p q :
  (0 ≤ p)%Z → (0 ≤ q)%Z →
  (entry_name p = entry_name q ↔ p = q) ∧
  (∃ digits, entry_name p = digits +:+ ".jpg" ∧ number_of digits = Some (Z.to_N p)) ∧
  7 ≤ String.length (entry_name p).
Proof.
  intros Hp Hq. split_and!; [|eexists; split; [done|apply number_of_pad0]|].
  - split; [by apply entry_name_inj|by intros ->].
  - unfold entry_name, pad0. rewrite !append_length.
    fold (zeros (3 - String.length (decimal (Z.to_N p)))).
    assert (∀ k, String.length (zeros k) = k) as Hz.
    { induction k as [|k IH]; [done|]. rewrite zeros_S. simpl. by rewrite IH. }
    rewrite Hz. simpl. lia.
Qed.

(** ** The destination and the names of the filename policy *)

Variable os : platform.

(** X8.  The path [ArchiveCBZ] writes to always ends in [.cbz], in some
    letter case, and asking for that path again names the same path.  A
    name made by [GetCBZFilename] is used as it is: no second [.cbz] is
    appended. *)
Theorem destination_cbz filename :
  HasSuffix (ToLower (destination filename)) ".cbz" = true ∧
  destination (destination filename) = destination filename ∧
  (∀ title chapterNumber chapterTitle,
     destination (GetCBZFilename os title chapterNumber chapterTitle)
     = GetCBZFilename os title chapterNumber chapterTitle).
Proof.
  assert (HasSuffix (ToLower (destination filename)) ".cbz" = true) as H.
  { unfold destination. destruct (HasSuffix (ToLower filename) ".cbz") eqn:E; [done|].
    rewrite ToLower_append. apply HasSuffix_append. }
  split_and!; [done| |].
  - unfold destination at 1. by rewrite H.
  - intros title x ct. unfold destination, GetCBZFilename.
    by rewrite ToLower_append, HasSuffix_append.
Qed.

(** X9.  A name made by [GetCBZFilename] holds none of the nine bytes of
    [invalidChars], whatever the title, the chapter number and the chapter
    title: in particular no [/] and no backslash, so it names a file in the
    directory it is joined to. *)
Theorem GetCBZFilename_safe title chapterNumber chapterTitle :
  Forall (λ c, contains (GetCBZFilename os title chapterNumber chapterTitle) c = false)
         invalidChars.
Proof.
  enough (valid (GetCBZFilename os title chapterNumber chapterTitle))
    by (by apply Forall_forall).
  unfold GetCBZFilename.
  assert (valid (chapterStr os chapterNumber)) as Hc.
  { unfold chapterStr. destruct (float64_eqb _ _); apply format_f_valid. }
  apply valid_append; [|valid_literal].
  destruct (decide (chapterTitle = "")).
  - repeat apply valid_append; try done; [apply sanitizeFilename_valid|valid_literal].
  - repeat apply valid_append; try done;
      [apply sanitizeFilename_valid|valid_literal|valid_literal|apply sanitizeFilename_valid].
Qed.

End filename_safety.

(* ===================================================================== *)
(** * ArchiveCBZ, ArchiveMultipleChapters and BundleChapters: outcomes *)

Section packer_guarantees.
Import packer.

Variable os : platform.

(** ** The invocations of the callback *)

(** The loop invokes the callback with the page argument 1 and the
    indices from [i] on. *)
Lemma reports_seq progress i n :
  reports progress i n =
  match progress with
  | Some f => concat (f 1 <$> seq i n)
  | None => []
  end.
Proof.
  revert i. induction n as [|n IH]; intros i; simpl; [by destruct progress|].
  destruct progress as [f|]; [|done]. by rewrite IH.
Qed.

Lemma reports_add progress i a b :
  reports progress i (a + b) = reports progress i a ++ reports progress (i + a) b.
Proof.
  revert i. induction a as [|a IH]; intros i; simpl.
  - by rewrite Nat.add_0_r.
  - destruct progress as [f|] eqn:E; [|by destruct b].
    by rewrite IH, <- app_assoc, Nat.add_succ_r.
Qed.

(** The callback [ArchiveMultipleChapters] hands to [ArchiveCBZ] counts
    on from [processedFiles]. *)
Lemma reports_shift (progress : ProgressCallback) n i len :
  reports (Some (λ page fileProgress,
                   match progress with
                   | Some f => f page (n + fileProgress)
                   | None => []
                   end)) i len
  = reports progress (n + i) len.
Proof.
  revert i. induction len as [|len IH]; intros i; simpl; [done|].
  rewrite IH, Nat.add_succ_r. destruct progress as [f|]; [done|]. by destruct len.
Qed.

(** ** The loop of ArchiveCBZ, whatever its outcome *)

Lemma write_files_outcome path i files progress w es :
  fs w !! path = Some (Container es) →
  ∃ k extra,
    k ≤ length files ∧
    fs (write_files os path i files progress w).1 !! path
      = Some (Container (es ++ (entry_of <$> take k files) ++ extra)) ∧
    log (write_files os path i files progress w).1 = log w ++ reports progress i k ∧
    match (write_files os path i files progress w).2 with
    | None => k = length files ∧ extra = []
    | Some (ErrCreateEntry name cause) =>
        extra = [] ∧
        ∃ file, files !! k = Some file ∧ name = entry_name (downloader.Page file) ∧
                create_fault os path name = Some cause
    | Some (ErrWrite name cause) =>
        extra = [mkEntry name []] ∧
        ∃ file, files !! k = Some file ∧ name = entry_name (downloader.Page file) ∧
                write_fault os path name = Some cause
    | Some _ => False
    end.
Proof.
  revert i w es. induction files as [|file rest IH]; intros i w es Hp; simpl.
  { exists 0, []. simpl. by rewrite !(right_id_L [] (++)). }
  destruct (create_fault os path _) as [e|] eqn:Hc; simpl.
  { exists 0, []. simpl. rewrite !(right_id_L [] (++)).
    split_and!; [lia|done|done|done|]. by exists file. }
  destruct (write_fault os path _) as [e|] eqn:Hw; cbn [fst snd].
  { exists 0, [mkEntry (entry_name (downloader.Page file)) []]. simpl.
    split_and!; [lia| |by rewrite (right_id_L [] (++))|done|by exists file].
    by apply add_entry_lookup. }
  destruct (IH (S i) (report progress 1 i
              (add_entry path (mkEntry (entry_name (downloader.Page file))
                                       (downloader.Data file)) w))
              (es ++ [entry_of file])) as (k & extra & Hk & Hfs & Hlog & Hres).
  { rewrite report_fs. by apply add_entry_lookup. }
  exists (S k), extra. split_and!; [lia| | |].
  - rewrite Hfs. simpl. by rewrite <- (assoc_L (++)).
  - rewrite Hlog. simpl. destruct progress as [f|]; simpl.
    + by rewrite <- app_assoc.
    + by destruct k.
  - destruct (write_files _ _ _ _ _ _).2 as [[]|]; try done.
    by destruct Hres as [-> ->].
Qed.

(** ** ArchiveCBZ, whatever its outcome *)

(** The directory is made, or making it fails and nothing has changed. *)
Lemma mkdir_outcome dir w :
  ∃ w1 r1,
    (if decide (dir = ".") then (w, None) else MkdirAll os dir w) = (w1, r1) ∧
    log w1 = log w ∧
    (∀ p n, fs w !! p = Some n → fs w1 !! p = Some n) ∧
    (∀ p, p ≠ dir → fs w1 !! p = fs w !! p) ∧
    match r1 with
    | Some _ => w1 = w
    | None => dir = "." ∨ fs w1 !! dir = Some Directory
    end.
Proof.
  destruct (decide (dir = ".")) as [Hd|Hd].
  { exists w, None. split_and!; auto. }
  unfold MkdirAll. destruct (fs w !! dir) as [[]|] eqn:E.
  - exists w, None. split_and!; auto.
  - eexists w, (Some _). split_and!; auto.
  - eexists w, (Some _). split_and!; auto.
  - destruct (mkdir_fault os dir) as [e|].
    + exists w, (Some e). split_and!; auto.
    + eexists _, None. split_and!; [done|done| | |].
      * intros p n Hp. simpl. rewrite lookup_insert_ne; [done|]. intros ->. congruence.
      * intros p Hp. simpl. by rewrite lookup_insert_ne.
      * right. simpl. by rewrite lookup_insert_eq.
Qed.

(** Something is at the destination when [ArchiveCBZ] returns [r]: it
    made the archive, or found the destination taken. *)
Definition destination_taken (r : option error) : Prop :=
  match r with
  | None | Some (ErrExists _) | Some (ErrCreateEntry _ _) | Some (ErrWrite _ _) => True
  | Some _ => False
  end.

(** What [ArchiveCBZ] has done when it returns [r], for files [files]. *)
Definition archive_outcome (filename : string) (files : list downloader.File)
    (progress : ProgressCallback) (w w' : world) (r : option error) : Prop :=
  let dest := destination filename in
  match r with
  | Some ErrNoFiles => files = [] ∧ w' = w
  | Some (ErrMkdir dir cause) => dir = Dir os dest ∧ w' = w
  | Some (ErrExists name) =>
      name = dest ∧ is_Some (fs w' !! dest) ∧ log w' = log w
  | Some (ErrCreateFile name cause) =>
      name = dest ∧ open_fault os dest = Some cause ∧
      fs w' !! dest = None ∧ log w' = log w
  | Some (ErrCreateEntry name cause) =>
      ∃ k file,
        files !! k = Some file ∧ name = entry_name (downloader.Page file) ∧
        create_fault os dest name = Some cause ∧
        fs w' !! dest = Some (Container (entry_of <$> take k files)) ∧
        log w' = log w ++ reports progress 0 k
  | Some (ErrWrite name cause) =>
      ∃ k file,
        files !! k = Some file ∧ name = entry_name (downloader.Page file) ∧
        write_fault os dest name = Some cause ∧
        fs w' !! dest = Some (Container ((entry_of <$> take k files) ++ [mkEntry name []])) ∧
        log w' = log w ++ reports progress 0 k
  | None =>
      files ≠ [] ∧ fs w !! dest = None ∧
      fs w' !! dest = Some (Container (entry_of <$> files)) ∧
      log w' = log w ++ reports progress 0 (length files)
  | Some _ => False
  end.

Lemma ArchiveCBZ_outcome filename files progress w w' r :
  ArchiveCBZ os filename files progress w = (w', r) →
  archive_outcome filename files progress w w' r ∧
  (∀ p, p ≠ destination filename → p ≠ Dir os (destination filename) →
        fs w' !! p = fs w !! p) ∧
  (destination_taken r →
   is_Some (fs w' !! destination filename) ∧
   directory_present os w' (destination filename)).
Proof.
  unfold ArchiveCBZ, archive_outcome, directory_present.
  destruct (decide (length files = 0)) as [Hz|Hz].
  { intros [= <- <-]. apply nil_length_inv in Hz. split; [done|]. split; done. }
  set (dest := destination filename). set (dir := Dir os dest).
  destruct (mkdir_outcome dir w) as (w1 & r1 & -> & Hlog1 & Hpres & Hother & Hdir).
  destruct r1 as [e|].
  { intros [= <- <-]. subst w1. split; [done|]. split; done. }
  unfold OpenFile. destruct (fs w1 !! dest) as [n|] eqn:Hd.
  { intros [= <- <-]. split; [|split].
    - split; [done|]. split; [by eexists|done].
    - intros p Hp1 Hp2. by apply Hother.
    - intros _. split; [by eexists|]. done. }
  destruct (open_fault os dest) as [e|] eqn:Ho.
  { intros [= <- <-]. split; [|split]; [done| |done].
    intros p Hp1 Hp2. by apply Hother. }
  set (w2 := mkWorld (<[dest:=Container []]> (fs w1)) (log w1)).
  assert (fs w2 !! dest = Some (Container [])) as Hw2 by (simpl; by rewrite lookup_insert_eq).
  destruct (write_files_outcome dest 0 files progress w2 [] Hw2)
    as (k & extra & Hk & Hfs & Hlog & Hres).
  pose proof (write_files_other os dest 0 files progress w2) as Hoth.
  assert (fs w !! dest = None) as Hfresh.
  { destruct (fs w !! dest) as [n|] eqn:E; [|done]. apply Hpres in E. congruence. }
  destruct (write_files os dest 0 files progress w2) as [w3 r3] eqn:Hrun.
  simpl in Hfs, Hlog, Hres. intros [= <- <-]. rewrite Hlog1 in Hlog.
  assert (∀ p, p ≠ dest → fs w3 !! p = fs w1 !! p) as Hoth'.
  { intros p Hp. specialize (Hoth p Hp). simpl in Hoth.
    by rewrite Hoth, lookup_insert_ne. }
  split; [|split].
  - destruct r3 as [[]|]; try done.
    + destruct Hres as (-> & file & Hf & -> & Hc). exists k, file.
      rewrite (right_id_L [] (++)) in Hfs. by split_and!.
    + destruct Hres as (-> & file & Hf & -> & Hc). exists k, file. by split_and!.
    + destruct Hres as [-> ->]. rewrite firstn_all, (right_id_L [] (++)) in Hfs.
      split; [by intros ->|]. by split_and!.
  - intros p Hp1 Hp2. rewrite Hoth' by done. by apply Hother.
  - intros _. split; [by eexists|].
    destruct Hdir as [?|Hdir]; [by left|right].
    rewrite Hoth'; [done|]. intros Heq. fold dir in Heq. congruence.
Qed.

(** X10.  When [ArchiveCBZ] returns no error, the list of files was not
    empty and nothing was at the destination; now an archive is there with
    one entry per file, in the order of the files, each named by the page
    number of its file and holding its data.  The callback was invoked
    once per file, with the page argument 1 and the index of the file,
    from 0 to the number of files less one. *)
Theorem ArchiveCBZ_success filename files progress w w' :
  ArchiveCBZ os filename files progress w = (w', None) →
  files ≠ [] ∧
  fs w !! destination filename = None ∧
  fs w' !! destination filename = Some (Container (entry_of <$> files)) ∧
  log w' = log w ++ match progress with
                    | Some f => concat (f 1 <$> seq 0 (length files))
                    | None => []
                    end.
Proof.
  intros H. apply ArchiveCBZ_outcome in H as ((Hne & Hfresh & Hfs & Hlog) & Hoth & _).
  rewrite reports_seq in Hlog. by split_and!.
Qed.


(** X12.  [ArchiveCBZ] does not write to the same destination twice.
    After a call that made the archive, in full or up to a failing entry,
    or that found the destination taken, every further call for that file
    name with a list of files that is not empty returns the error
    "already exists" and changes nothing: a failed archive is not
    replaced by a retry. *)
Theorem ArchiveCBZ_not_twice filename files progress w w' r files2 progress2 :
  ArchiveCBZ os filename files progress w = (w', r) →
  destination_taken r → files2 ≠ [] →
  ArchiveCBZ os filename files2 progress2 w'
  = (w', Some (ErrExists (destination filename))).
Proof.
  intros H Hr Hne. apply ArchiveCBZ_outcome in H as (_ & _ & Htaken).
  destruct (Htaken Hr) as [[n Hn] Hdir].
  unfold ArchiveCBZ. rewrite decide_False by (by destruct files2).
  set (dest := destination filename) in *. set (dir := Dir os dest) in *.
  assert ((if decide (dir = ".") then (w', None) else MkdirAll os dir w') = (w', None)) as ->.
  { destruct (decide (dir = ".")); [done|]. destruct Hdir as [?|Hdir]; [done|].
    unfold MkdirAll. fold dir in Hdir. by rewrite Hdir. }
  unfold OpenFile. by rewrite Hn.
Qed.

(** ** BundleChapters *)

Section bundle.

Variables (chapters : gmap string (list downloader.File)).

Local Abbreviation group := (group chapters).

(** [allFiles] is the files of the groups, group after group in the
    order the keys are visited. *)
Lemma bundle_files_concat order : bundle_files chapters order = concat (group <$> order).
Proof.
  unfold bundle_files.
  assert (∀ l acc,
    foldl (λ allFiles file,
             allFiles ++ [downloader.mkFile (downloader.Data file) (downloader.Page file)])
          acc l = acc ++ l) as Hin.
  { induction l as [|[d p] l IH]; intros acc; simpl.
    - by rewrite (right_id_L [] (++)).
    - by rewrite IH, <- (assoc_L (++)). }
  assert (∀ acc,
    foldl (λ allFiles chapterKey,
             foldl (λ allFiles file,
                      allFiles ++
                      [downloader.mkFile (downloader.Data file) (downloader.Page file)])
                   allFiles (default [] (chapters !! chapterKey)))
          acc order = acc ++ concat (group <$> order)) as Hout.
  { induction order as [|k order IH]; intros acc; simpl.
    - by rewrite (right_id_L [] (++)).
    - rewrite IH, Hin. by rewrite <- (assoc_L (++)). }
  apply (Hout []).
Qed.

(** X13.  [BundleChapters] fails before it touches the file system
    when there is nothing to bundle: for an empty map it returns
    "no chapters to bundle", and for a map whose visited groups are all
    empty "no files to bundle"; in both cases nothing has changed and the
    callback has not been invoked.  In every other case it does what
    [ArchiveCBZ] does for the files of the groups, one group after the
    other in the order the keys are visited, and returns its error. *)
Theorem BundleChapters_outcome filename progress order w :
  (size chapters = 0 →
   BundleChapters os filename chapters progress order w
   = (w, Some ErrNoChaptersToBundle)) ∧
  (size chapters ≠ 0 → Forall (λ k, group k = []) order →
   BundleChapters os filename chapters progress order w
   = (w, Some ErrNoFilesToBundle)) ∧
  (size chapters ≠ 0 → Exists (λ k, group k ≠ []) order →
   BundleChapters os filename chapters progress order w
   = ((ArchiveCBZ os filename (concat (group <$> order)) progress w).1,
      ErrArchive <$> (ArchiveCBZ os filename (concat (group <$> order)) progress w).2) ∧
   (ArchiveCBZ os filename (concat (group <$> order)) progress w).2 ≠ Some ErrNoFiles).
Proof.
  unfold BundleChapters. rewrite bundle_files_concat.
  split_and!.
  - intros Hz. by rewrite decide_True.
  - intros Hz Hall. rewrite decide_False by done.
    rewrite decide_True; [done|].
    induction Hall as [|k ks Hk _ IH]; simpl; [done|]. by rewrite Hk.
  - intros Hz Hex. rewrite decide_False by done.
    assert (concat (group <$> order) ≠ []) as Hne.
    { induction Hex as [k ks Hk|k ks _ IH]; simpl.
      - by destruct (group k).
      - intros [_ ?]%app_eq_nil. done. }
    rewrite decide_False by (by destruct (concat _)).
    split; [by destruct (ArchiveCBZ _ _ _ _ _)|].
    destruct (ArchiveCBZ os filename (concat (group <$> order)) progress w)
      as [w' r] eqn:Hrun.
    apply ArchiveCBZ_outcome in Hrun as (Hout & _ & _). simpl. intros ->.
    by destruct Hout as [? _].
Qed.

(** The names of the entries are pairwise different exactly when the
    page numbers are. *)
Lemma entry_names_NoDup (files : list downloader.File) :
  Forall (λ f, (0 ≤ downloader.Page f)%Z) files →
  NoDup (e_name <$> (entry_of <$> files)) ↔ NoDup (downloader.Page <$> files).
Proof.
  intros Hpos.
  assert (e_name <$> (entry_of <$> files) = entry_name <$> (downloader.Page <$> files)) as ->.
  { by rewrite <- !list_fmap_compose. }
  split; [apply NoDup_fmap_1|].
  apply NoDup_fmap_2_strong. intros p q Hp Hq.
  apply list_elem_of_fmap in Hp as (f & -> & Hf). apply list_elem_of_fmap in Hq as (g & -> & Hg).
  rewrite Forall_forall in Hpos. apply entry_name_inj; by apply Hpos.
Qed.

(** X14.  When [BundleChapters] returns no error, the archive at the
    destination holds the entries of the files of all groups, one group
    after the other in the order the keys are visited, and the callback
    was invoked once per file, counting through all of them from 0.  An
    entry is named by the page number of its file alone: the chapter does
    not enter the name.  So the names in the bundle are pairwise different
    exactly when the page numbers of all bundled files are; chapters that
    each have a page 1 give several entries [001.jpg]. *)
Theorem BundleChapters_entries filename progress order w w' :
  BundleChapters os filename chapters progress order w = (w', None) →
  fs w' !! destination filename
    = Some (Container (entry_of <$> concat (group <$> order))) ∧
  log w' = log w ++ match progress with
                    | Some f => concat (f 1 <$> seq 0 (length (concat (group <$> order))))
                    | None => []
                    end ∧
  (Forall (λ f, (0 ≤ downloader.Page f)%Z) (concat (group <$> order)) →
   (NoDup (e_name <$> (entry_of <$> concat (group <$> order)))
    ↔ NoDup (downloader.Page <$> concat (group <$> order)))).
Proof.
  unfold BundleChapters. rewrite bundle_files_concat.
  destruct (decide (size chapters = 0)); [done|].
  destruct (decide (length (concat (group <$> order)) = 0)); [done|].
  destruct (ArchiveCBZ os filename (concat (group <$> order)) progress w)
    as [w1 r] eqn:Hrun.
  intros [= <- Hr]. destruct r; [done|].
  apply ArchiveCBZ_outcome in Hrun as ((_ & _ & Hfs & Hlog) & _ & _).
  rewrite reports_seq in Hlog. split_and!; [done|done|apply entry_names_NoDup].
Qed.

End bundle.

(** ** ArchiveMultipleChapters *)

Section chapters_outcome.

Variables (baseDir : string) (chapters : gmap string (list downloader.File))
          (titles : gmap string string) (chapterNumbers : gmap string float64)
          (progress : ProgressCallback).

Local Abbreviation files_of := (group chapters).
Local Abbreviation path_of := (container_path os baseDir titles chapterNumbers).
Local Abbreviation visit :=
  (archive_chapters os baseDir chapters titles chapterNumbers progress).

(** The number of files in the groups of [keys]. *)
Definition total_files (keys : list string) : nat :=
  sum_list_with (λ k, length (files_of k)) keys.

Lemma archive_chapters_log n keys w w' :
  visit n keys w = (w', None) →
  log w' = log w ++ reports progress n (total_files keys).
Proof.
  unfold total_files, group.
  revert n w. induction keys as [|k keys IH]; intros n w Hrun; simpl in *.
  { simplify_eq. by rewrite (right_id_L [] (++)). }
  destruct (decide (length (default [] (chapters !! k)) = 0)) as [Hz|Hz].
  { rewrite Hz. simpl. by apply IH. }
  match type of Hrun with context [ArchiveCBZ os ?f ?fl ?pr w] =>
    destruct (ArchiveCBZ os f fl pr w) as [w1 [e|]] eqn:Ha end; [done|].
  apply ArchiveCBZ_outcome in Ha as ((_ & _ & _ & Hlog) & _ & _).
  rewrite reports_shift, Nat.add_0_r in Hlog.
  apply IH in Hrun. rewrite Hrun, Hlog, reports_add. by rewrite <- app_assoc.
Qed.

Lemma archive_chapters_fresh n keys w w' :
  visit n keys w = (w', None) →
  ∀ k, k ∈ keys → files_of k ≠ [] → fs w !! path_of k = None.
Proof.
  unfold container_path, group.
  revert n w. induction keys as [|k0 keys IH]; intros n w Hrun k Hk Hne; simpl in *.
  { by apply elem_of_nil in Hk. }
  destruct (decide (length (default [] (chapters !! k0)) = 0)) as [Hz|Hz].
  { apply elem_of_cons in Hk as [->|Hk]; [|by eapply IH].
    by apply nil_length_inv in Hz. }
  match type of Hrun with context [ArchiveCBZ os ?f ?fl ?pr w] =>
    destruct (ArchiveCBZ os f fl pr w) as [w1 [e|]] eqn:Ha end; [done|].
  apply elem_of_cons in Hk as [->|Hk].
  - by apply ArchiveCBZ_outcome in Ha as ((_ & ? & _) & _).
  - pose proof (IH _ _ Hrun k Hk Hne) as H1.
    match goal with |- ?x = None => destruct x as [nd|] eqn:E; [|done] end.
    match type of Ha with ArchiveCBZ os ?f ?fl ?pr w = _ =>
      pose proof (ArchiveCBZ_preserves os f fl pr w _ _ E) as Hp end.
    rewrite Ha in Hp. simpl in Hp. congruence.
Qed.

Lemma archive_chapters_distinct n keys w w' :
  visit n keys w = (w', None) →
  ∀ i j k1 k2, i < j → keys !! i = Some k1 → keys !! j = Some k2 →
               files_of k1 ≠ [] → files_of k2 ≠ [] → path_of k1 ≠ path_of k2.
Proof.
  revert n w. induction keys as [|k0 keys IH]; intros n w Hrun i j k1 k2 Hij H1 H2 Hn1 Hn2.
  { done. }
  simpl in Hrun.
  destruct j as [|j]; [lia|]. simpl in H2.
  destruct (decide (length (default [] (chapters !! k0)) = 0)) as [Hz|Hz].
  { destruct i as [|i]; simpl in H1.
    - simplify_eq. by apply nil_length_inv in Hz.
    - eapply (IH _ _ Hrun i j); [lia|done..]. }
  match type of Hrun with context [ArchiveCBZ os ?f ?fl ?pr w] =>
    destruct (ArchiveCBZ os f fl pr w) as [w1 [e|]] eqn:Ha end; [done|].
  destruct i as [|i]; simpl in H1.
  - simplify_eq.
    pose proof (archive_chapters_fresh _ _ _ _ Hrun k2
                  ltac:(by eapply list_elem_of_lookup_2) Hn2) as Hfresh.
    apply ArchiveCBZ_outcome in Ha as ((_ & _ & Hfs & _) & _).
    intros Heq. unfold container_path in *. rewrite <- Heq in Hfresh.
    congruence.
  - eapply (IH _ _ Hrun i j); [lia|done..].
Qed.

(** X15.  When [ArchiveMultipleChapters] returns no error, the callback
    of the caller was invoked once per file of the groups visited, with
    the page argument 1 and a progress that counts through the files of
    all groups, from 0 on, in the order the groups were visited: the
    count does not start again for each chapter. *)
Theorem ArchiveMultipleChapters_progress order w w' :
  ArchiveMultipleChapters os baseDir chapters titles chapterNumbers progress order w
  = (w', None) →
  log w' = log w ++ match progress with
                    | Some f => concat (f 1 <$> seq 0 (total_files order))
                    | None => []
                    end.
Proof.
  unfold ArchiveMultipleChapters. destruct (decide (size chapters = 0)); [done|].
  pose proof (MkdirAll_log os baseDir w) as Hl.
  destruct (MkdirAll os baseDir w) as [w1 [e|]]; [done|]. simpl in Hl.
  intros Hrun. apply archive_chapters_log in Hrun.
  by rewrite Hrun, Hl, reports_seq.
Qed.

(** X16.  [ArchiveMultipleChapters] returns no error only when every
    group that is not empty has a path of its own and nothing was at that
    path before: two groups whose titles and chapter numbers give the same
    file name cannot both be archived, and a container that is there
    already is not replaced. *)
Theorem ArchiveMultipleChapters_own_paths order w w' :
  ArchiveMultipleChapters os baseDir chapters titles chapterNumbers progress order w
  = (w', None) →
  (∀ k, k ∈ order → files_of k ≠ [] → fs w !! path_of k = None) ∧
  (∀ i j k1 k2, i ≠ j → order !! i = Some k1 → order !! j = Some k2 →
                files_of k1 ≠ [] → files_of k2 ≠ [] → path_of k1 ≠ path_of k2).
Proof.
  unfold ArchiveMultipleChapters. destruct (decide (size chapters = 0)); [done|].
  pose proof (λ p n, MkdirAll_preserves os baseDir w p n) as Hp.
  destruct (MkdirAll os baseDir w) as [w1 [e|]]; [done|]. simpl in Hp.
  intros Hrun. split.
  - intros k Hk Hne. pose proof (archive_chapters_fresh _ _ _ _ Hrun k Hk Hne) as Hf.
    destruct (fs w !! path_of k) as [nd|] eqn:E; [|done].
    apply Hp in E. congruence.
  - intros i j k1 k2 Hij H1 H2 Hn1 Hn2.
    destruct (decide (i < j)) as [Hlt|Hge].
    + by eapply (archive_chapters_distinct _ _ _ _ Hrun i j).
    + intros Heq. symmetry in Heq. revert Heq.
      eapply (archive_chapters_distinct _ _ _ _ Hrun j i); [lia|done..].
Qed.

End chapters_outcome.

(** ** No entry point replaces what is there *)

(** X17.  None of [ArchiveCBZ], [ArchiveMultipleChapters] and
    [BundleChapters] changes or removes what is at a path already, whether
    it returns an error or not: they only add paths. *)
Theorem packer_never_overwrites w p n :
  fs w !! p = Some n →
  (∀ filename files progress,
     fs (ArchiveCBZ os filename files progress w).1 !! p = Some n) ∧
  (∀ baseDir chapters titles chapterNumbers progress order,
     fs (ArchiveMultipleChapters os baseDir chapters titles chapterNumbers progress
           order w).1 !! p = Some n) ∧
  (∀ filename chapters progress order,
     fs (BundleChapters os filename chapters progress order w).1 !! p = Some n).
Proof.
  intros Hp. split_and!.
  - intros filename files pr. by apply ArchiveCBZ_preserves.
  - intros baseDir chapters titles chapterNumbers pr order.
    unfold ArchiveMultipleChapters. destruct (decide _); [done|].
    pose proof (MkdirAll_preserves os baseDir w p n Hp) as H1.
    destruct (MkdirAll os baseDir w) as [w1 [e|]]; [done|]. simpl in H1.
    by apply archive_chapters_preserves.
  - intros filename chapters pr order.
    unfold BundleChapters. destruct (decide _); [done|].
    destruct (decide _); [done|].
    pose proof (ArchiveCBZ_preserves os filename (bundle_files chapters order)
                  pr w p n Hp) as H1.
    by destruct (ArchiveCBZ _ _ _ _ _).
Qed.

End packer_guarantees.

(* ===================================================================== *)
(** * From the downloader to the packer *)

Section pipeline.
Import downloader packer.

Variable http_Get : string → response.
Variable pages : list grabber.Page.
Variable os : platform.

Local Abbreviation fetch := (downloader.fetch http_Get).
Local Abbreviation reachable := (downloader.reachable http_Get pages).
Local Abbreviation got := (fetched http_Get pages).

Lemma fetched_pages_sublist : sublist (Page <$> got) (pageno <$> pages).
Proof.
  unfold fetched. induction pages as [|p ps IH]; csimpl; [constructor|].
  destruct (fetch p) as [f|e] eqn:Hf; csimpl.
  - rewrite (fetch_Page _ p f Hf). by constructor.
  - by constructor.
Qed.

Lemma fetched_pages_nonneg : Forall (λ f, (0 ≤ Page f)%Z) got.
Proof.
  apply Forall_forall. intros f (p & _ & Hf)%list_elem_of_omap.
  destruct (fetch p) as [f'|] eqn:E; simplify_eq.
  rewrite (fetch_Page _ p f E). unfold pageno, uint. apply Z.mod_pos_bound. lia.
Qed.

(** X18.  What the program does with a chapter: the list
    [FetchChapter] returned without an error is handed to [ArchiveCBZ].
    When that returns no error, the archive holds one entry for every
    page whose fetch succeeded and no other, the entries stand in
    ascending order of page number whatever the order in which the pages
    arrived, and, the page numbers of the chapter being pairwise
    different, no two entries have the same name. *)
Theorem FetchChapter_then_ArchiveCBZ s l filename progress w w' :
  reachable s → returned (Some l) None s →
  ArchiveCBZ os filename l progress w = (w', None) →
  fs w' !! destination filename = Some (Container (entry_of <$> l)) ∧
  Sorted Z.le (Page <$> l) ∧
  (∀ e, e ∈ entry_of <$> l ↔ ∃ p f, p ∈ pages ∧ fetch p = inl f ∧ e = entry_of f) ∧
  (NoDup (pageno <$> pages) → NoDup (e_name <$> (entry_of <$> l))).
Proof.
  intros Hs Hr Ha. apply Inv_reachable in Hs.
  pose proof (returned_result _ _ s _ _ Hs Hr) as Hres.
  destruct (returned_files _ _ s Hs ltac:(by eexists _, _)) as [Hf _].
  destruct (downloadErr s); destruct Hres as [Hl _]; [done|]. injection Hl as ->.
  assert (sortStable (files s) ≡ₚ got) as Hperm by (by rewrite sortStable_perm).
  apply ArchiveCBZ_outcome in Ha as ((_ & _ & Hfs & _) & _).
  split_and!; [done| | |].
  - eapply Sorted_fmap; [|apply sortStable_sorted]. done.
  - intros e. rewrite list_elem_of_fmap. split.
    + intros (f & -> & Hin). rewrite Hperm in Hin.
      apply list_elem_of_omap in Hin as (p & Hp & Hfp).
      exists p, f. split_and!; [done| |done]. destruct (fetch p); by simplify_eq.
    + intros (p & f & Hp & Hfp & ->). exists f. split; [done|].
      rewrite Hperm. apply list_elem_of_omap. exists p. split; [done|]. by rewrite Hfp.
  - intros Hnd. apply entry_names_NoDup.
    + rewrite Hperm. apply fetched_pages_nonneg.
    + rewrite Hperm. eapply sublist_NoDup; eauto using fetched_pages_sublist.
Qed.

End pipeline.

(* ===================================================================== *)
(** * The guarantees of the packer on concrete inputs *)

Section packer_guarantees_examples.
Import packer.

(** A callback that records its invocations. *)
Definition recording : ProgressCallback := Some (λ page i, [mkCall page i]).

(** [posix], but writing the data of an entry [003.jpg] fails. *)
Definition posix_disk_full : platform :=
  mkPlatform simple_Dir (λ dir name, dir +:+ "/" +:+ name) (λ _, (- 2 ^ 63)%Z)
             (λ _, None) (λ _, None) (λ _ _, None)
             (λ _ name, if decide (name = "003.jpg") then Some (OSError "disk full") else None).

(** The worlds after archiving [out_of_order] to [test.cbz], without a
    fault and with the disk full at [003.jpg]. *)
Definition world_archived : world :=
  (ArchiveCBZ posix "test.cbz" out_of_order recording empty_world).1.

Definition world_partial : world :=
  (ArchiveCBZ posix_disk_full "test.cbz" out_of_order recording empty_world).1.

(** The worlds after bundling and after archiving [two_chapters]. *)
Definition world_bundled : world :=
  (BundleChapters posix "bundle.cbz" two_chapters recording ["a"; "b"] empty_world).1.

Definition world_two_chapters : world :=
  (ArchiveMultipleChapters posix "out" two_chapters two_titles two_numbers recording
     ["a"; "b"] empty_world).1.

(** X6, for the title [One Piece]. *)
Lemma sanitizeFilename_unchanged_witness :
  (∀ c, c ∈ invalidChars → contains "One Piece" c = false) ∧
  (∀ c, last_byte "One Piece" = Some c → c ≠ " "%char ∧ c ≠ "."%char) ∧
  String.length "One Piece" ≤ 200 ∧
  sanitizeFilename "One Piece" = "One Piece"%string.
Proof.
  assert (∀ c, c ∈ invalidChars → contains "One Piece" c = false) as H1.
  { intros c Hc. unfold invalidChars in Hc.
    repeat (apply elem_of_cons in Hc as [->|Hc]; [by vm_compute|]).
    by apply elem_of_nil in Hc. }
  assert (∀ c, last_byte "One Piece" = Some c → c ≠ " "%char ∧ c ≠ "."%char) as H2.
  { intros c [= <-]. split; discriminate. }
  assert (String.length "One Piece" ≤ 200) as H3 by (vm_compute; lia).
  split; [done|]. split; [done|]. split; [done|].
  apply (sanitizeFilename_unchanged "One Piece" H1 H2 H3).
Defined.

(** X7, for the pages 1 and 2. *)
Lemma entry_name_distinct_witness :
  (0 ≤ 1)%Z ∧ (0 ≤ 2)%Z ∧
  entry_name 1 ≠ entry_name 2 ∧ entry_name 1 = "001.jpg"%string.
Proof.
  assert (0 ≤ 1)%Z as H1 by lia. assert (0 ≤ 2)%Z as H2 by lia.
  split; [done|]. split; [done|].
  destruct (entry_name_distinct 1 2 H1 H2) as (Hiff & _).
  split; [|reflexivity]. intros Heq. apply Hiff in Heq. discriminate.
Defined.

(** X10, for the files of pages 1, 3 and 2 in an empty file system. *)
Lemma ArchiveCBZ_success_witness :
  ArchiveCBZ posix "test.cbz" out_of_order recording empty_world = (world_archived, None) ∧
  fs world_archived !! "test.cbz"
    = Some (Container [mkEntry "001.jpg" data_A; mkEntry "003.jpg" data_B;
                       mkEntry "002.jpg" data_C]) ∧
  log world_archived = [mkCall 1 0; mkCall 1 1; mkCall 1 2].
Proof.
  assert (ArchiveCBZ posix "test.cbz" out_of_order recording empty_world
          = (world_archived, None)) as Hrun by (by vm_compute).
  split; [done|].
  destruct (ArchiveCBZ_success posix "test.cbz" out_of_order recording empty_world
              world_archived Hrun) as (_ & _ & Hfs & Hlog).
  split; [exact Hfs|exact Hlog].
Defined.


(** X12, after that failure: the retry finds the partial archive and
    fails. *)
Lemma ArchiveCBZ_not_twice_witness :
  ArchiveCBZ posix_disk_full "test.cbz" out_of_order recording empty_world
    = (world_partial, Some (ErrWrite "003.jpg" (OSError "disk full"))) ∧
  destination_taken (Some (ErrWrite "003.jpg" (OSError "disk full"))) ∧
  [downloader.mkFile data_A 1] ≠ [] ∧
  ArchiveCBZ posix_disk_full "test.cbz" [downloader.mkFile data_A 1] recording world_partial
    = (world_partial, Some (ErrExists "test.cbz")).
Proof.
  assert (ArchiveCBZ posix_disk_full "test.cbz" out_of_order recording empty_world
          = (world_partial, Some (ErrWrite "003.jpg" (OSError "disk full")))) as Hrun
    by (by vm_compute).
  assert ([downloader.mkFile data_A 1] ≠ []) as Hne by done.
  split; [done|]. split; [exact I|]. split; [done|].
  apply (ArchiveCBZ_not_twice posix_disk_full "test.cbz" out_of_order recording empty_world
           world_partial _ [downloader.mkFile data_A 1] recording Hrun I Hne).
Defined.

(** X13, for an empty map and for a map of one empty group. *)
Lemma BundleChapters_outcome_witness :
  BundleChapters posix "bundle.cbz" ∅ recording [] empty_world
    = (empty_world, Some ErrNoChaptersToBundle) ∧
  BundleChapters posix "bundle.cbz" {[ "a" := [] ]} recording ["a"] empty_world
    = (empty_world, Some ErrNoFilesToBundle).
Proof.
  split.
  - apply (BundleChapters_outcome posix ∅ "bundle.cbz" recording [] empty_world).
    reflexivity.
  - apply (BundleChapters_outcome posix {[ "a" := [] ]} "bundle.cbz" recording ["a"]
             empty_world).
    + by vm_compute.
    + repeat constructor.
Defined.

(** X14, for two chapters of one page each: the bundle holds two
    entries [001.jpg]. *)
Lemma BundleChapters_entries_witness :
  BundleChapters posix "bundle.cbz" two_chapters recording ["a"; "b"] empty_world
    = (world_bundled, None) ∧
  fs world_bundled !! "bundle.cbz"
    = Some (Container [mkEntry "001.jpg" data_A; mkEntry "001.jpg" data_B]) ∧
  log world_bundled = [mkCall 1 0; mkCall 1 1] ∧
  ¬ NoDup (e_name <$> [mkEntry "001.jpg" data_A; mkEntry "001.jpg" data_B]).
Proof.
  assert (BundleChapters posix "bundle.cbz" two_chapters recording ["a"; "b"] empty_world
          = (world_bundled, None)) as Hrun by (by vm_compute).
  split; [done|].
  destruct (BundleChapters_entries posix two_chapters "bundle.cbz" recording ["a"; "b"]
              empty_world world_bundled Hrun) as (Hfs & Hlog & Hnames).
  split; [exact Hfs|]. split; [exact Hlog|].
  intros Hnd. apply Hnames in Hnd.
  - apply NoDup_cons in Hnd as [Hin _]. apply Hin. by left.
  - repeat constructor; done.
Defined.

(** X15, for two chapters of one page each: the progress goes on from
    0 to 1. *)
Lemma ArchiveMultipleChapters_progress_witness :
  ArchiveMultipleChapters posix "out" two_chapters two_titles two_numbers recording
    ["a"; "b"] empty_world = (world_two_chapters, None) ∧
  log world_two_chapters = [mkCall 1 0; mkCall 1 1].
Proof.
  assert (ArchiveMultipleChapters posix "out" two_chapters two_titles two_numbers recording
            ["a"; "b"] empty_world = (world_two_chapters, None)) as Hrun by (by vm_compute).
  split; [done|].
  apply (ArchiveMultipleChapters_progress posix "out" two_chapters two_titles two_numbers
           recording ["a"; "b"] empty_world world_two_chapters Hrun).
Defined.

(** X16, for the same call: the two containers have paths of their
    own. *)
Lemma ArchiveMultipleChapters_own_paths_witness :
  ArchiveMultipleChapters posix "out" two_chapters two_titles two_numbers recording
    ["a"; "b"] empty_world = (world_two_chapters, None) ∧
  container_path posix "out" two_titles two_numbers "a" = "out/T - Chapter 1.cbz"%string ∧
  container_path posix "out" two_titles two_numbers "b" = "out/T - Chapter 2.cbz"%string ∧
  container_path posix "out" two_titles two_numbers "a"
    ≠ container_path posix "out" two_titles two_numbers "b".
Proof.
  assert (ArchiveMultipleChapters posix "out" two_chapters two_titles two_numbers recording
            ["a"; "b"] empty_world = (world_two_chapters, None)) as Hrun by (by vm_compute).
  split; [done|]. split; [by vm_compute|]. split; [by vm_compute|].
  destruct (ArchiveMultipleChapters_own_paths posix "out" two_chapters two_titles
              two_numbers recording ["a"; "b"] empty_world world_two_chapters Hrun)
    as [_ Hdist].
  apply (Hdist 0 1 "a"%string "b"%string); try done; by vm_compute.
Defined.

(** X17, with a file at [existing.cbz]: archiving to [existing] leaves
    it as it is. *)
Lemma packer_never_overwrites_witness :
  fs world_existing !! "existing.cbz" = Some (Regular data_A) ∧
  fs (ArchiveCBZ posix "existing" out_of_order recording world_existing).1 !! "existing.cbz"
    = Some (Regular data_A) ∧
  fs (BundleChapters posix "existing" two_chapters recording ["a"; "b"] world_existing).1
     !! "existing.cbz" = Some (Regular data_A).
Proof.
  assert (fs world_existing !! "existing.cbz" = Some (Regular data_A)) as Hp
    by (by vm_compute).
  split; [done|].
  destruct (packer_never_overwrites posix world_existing "existing.cbz" (Regular data_A) Hp)
    as (H1 & _ & H3).
  split; [apply H1|apply H3].
Defined.

End packer_guarantees_examples.

(* ===================================================================== *)
(** * A chapter fetched and archived *)

Section pipeline_examples.
Import downloader packer.

(** Both pages of two are served; page 2 arrives first. *)
Definition page2_first : list action :=
  start_two ++ whole 1 ++ whole 0 ++ [Closer; Closer; Closer] ++
  [Select RecvDone; Main; Main; Main; Main].

Definition state_page2_first : state :=
  Eval vm_compute in default init (run serve_all two_pages page2_first init).

Definition world_fetched : world :=
  (ArchiveCBZ posix "T - Chapter 1.cbz"
     [downloader.mkFile [x41] 1; downloader.mkFile [x41] 2] None empty_world).1.

(** X18, on the run [page2_first]: the file of page 2 is received
    first, and the archive lists page 1 first. *)
Lemma FetchChapter_then_ArchiveCBZ_witness :
  reachable serve_all two_pages state_page2_first ∧
  files state_page2_first = [downloader.mkFile [x41] 2; downloader.mkFile [x41] 1] ∧
  returned (Some [downloader.mkFile [x41] 1; downloader.mkFile [x41] 2]) None
    state_page2_first ∧
  ArchiveCBZ posix "T - Chapter 1.cbz"
    [downloader.mkFile [x41] 1; downloader.mkFile [x41] 2] None empty_world
    = (world_fetched, None) ∧
  fs world_fetched !! "T - Chapter 1.cbz"
    = Some (Container [mkEntry "001.jpg" [x41]; mkEntry "002.jpg" [x41]]).
Proof.
  assert (reachable serve_all two_pages state_page2_first) as Hreach.
  { apply (run_reachable _ _ page2_first). vm_compute. reflexivity. }
  assert (returned (Some [downloader.mkFile [x41] 1; downloader.mkFile [x41] 2]) None
            state_page2_first) as Hret by reflexivity.
  assert (ArchiveCBZ posix "T - Chapter 1.cbz"
            [downloader.mkFile [x41] 1; downloader.mkFile [x41] 2] None empty_world
          = (world_fetched, None)) as Hrun by (by vm_compute).
  split; [done|]. split; [reflexivity|]. split; [done|]. split; [done|].
  destruct (FetchChapter_then_ArchiveCBZ serve_all two_pages posix state_page2_first _
              "T - Chapter 1.cbz" None empty_world world_fetched Hreach Hret Hrun)
    as (Hfs & _).
  exact Hfs.
Defined.

End pipeline_examples.
